(** * tf-2-playground: the notebook's own glue code, embedded and verified

  The notebook [multilingual-universal-sentence-encoder-qa-retrieval.ipynb]
  defines a handful of Python helpers around pretrained models: SQuAD
  extraction, batch indexing, answer highlighting, video download cache,
  centre cropping, frame normalisation and the top-5 report.  Each helper
  is translated below as it is written; the pretrained models and the
  third-party libraries stay opaque and enter as section variables. *)

From Stdlib Require Import ZArith String Ascii List Lia Bool.
From Stdlib Require Import Floats SpecFloat Uint63.
From stdpp Require Import gmap strings list sorting.

Local Open Scope string_scope.
Local Open Scope list_scope.
Local Open Scope Z_scope.

(** ** Python string primitives used by the notebook

    A text is a sequence of characters; [string] stands for it, one
    [ascii] per character. *)

Module Py.

(** [len(s)] *)
Definition len (s : string) : Z := Z.of_nat (String.length s).

(** [s.find(sub)]: lowest index of an occurrence of [sub] in [s], -1 when
    there is none. *)
Definition find (s sub : string) : Z :=
  match String.index 0 sub s with
  | Some n => Z.of_nat n
  | None => -1
  end.

(** Normalisation of a slice bound against a sequence of length [n]:
    negative bounds count from the end, and every bound is clamped. *)
Definition bound (n i : Z) : Z :=
  if i <? 0 then Z.max 0 (i + n) else Z.min i n.

(** [s[lo:hi]] *)
Definition slice (s : string) (lo hi : Z) : string :=
  let a := bound (len s) lo in
  let b := bound (len s) hi in
  String.substring (Z.to_nat a) (Z.to_nat (b - a)) s.

(** [s[lo:]] *)
Definition slice_from (s : string) (lo : Z) : string :=
  slice s lo (len s).

(** The line feed of ['\n']. *)
Definition nl : string := String (ascii_of_nat 10) EmptyString.

End Py.

(** ** Visualization: [output_with_highlight] *)

Module Highlight.

(** One pass through the body of [while True:].  The loop variables are
    [text], [output] and [i]; [highlight] is fixed. *)
Inductive iteration : Type :=
| Break (output : string)
| Again (text output : string) (i : Z).

Definition loop_body (highlight text output : string) (i : Z) : iteration :=
  if i =? -1 then
    Break (output +:+ text)
  else
    let output := output +:+ Py.slice text 0 i in
    let output :=
      output +:+ ("<b>" +:+ Py.slice text i (i + Py.len highlight) +:+ "<b>") in
    let text := Py.slice_from text (i + Py.len highlight) in
    let i := Py.find text highlight in
    Again text output i.

(** [while True:] run for at most [fuel] passes; [None] means the loop is
    still running after [fuel] passes. *)
Fixpoint while_true (fuel : nat) (highlight text output : string) (i : Z)
  : option string :=
  match fuel with
  | O => None
  | S fuel' =>
      match loop_body highlight text output i with
      | Break output' => Some output'
      | Again text' output' i' => while_true fuel' highlight text' output' i'
      end
  end.

Definition output_with_highlight (fuel : nat) (text highlight : string)
  : option string :=
  let output := "<li> " in
  let i := Py.find text highlight in
  match while_true fuel highlight text output i with
  | Some output => Some (output +:+ "</li>" +:+ Py.nl)
  | None => None
  end.

End Highlight.

(** Slices of Python lists and of the leading axes of arrays: [l[lo:hi]]. *)
Definition lslice {A : Type} (l : list A) (lo hi : Z) : list A :=
  let n := Z.of_nat (length l) in
  let a := Py.bound n lo in
  let b := Py.bound n hi in
  take (Z.to_nat (b - a)) (drop (Z.to_nat a) l).

(** [enumerate(l)] *)
Definition enumerate {A : Type} (l : list A) : list (nat * A) :=
  zip (seq 0 (length l)) l.

(** ** SQuAD utility functions *)

Module Squad.

(** The part of the SQuAD schema the notebook reads:
    [data[].paragraphs[].{context, qas[].{question, answers[].text}}]. *)
Record answer : Type := Answer { text : string }.
Record qa : Type := Qa { question : string; answers : list answer }.
Record paragraph : Type := Paragraph { context : string; qas : list qa }.
Record article : Type := Article { paragraphs : list paragraph }.
Record squad_json : Type := SquadJson { data : list article }.

(** [list(set(l))] on pairs of texts: the set keeps one copy of each pair and
    is listed in the set's own order. *)
Definition list_of_set (l : list (string * string)) : list (string * string) :=
  elements (list_to_set l : gset (string * string)).

Section Extraction.

(** [nltk.tokenize.sent_tokenize], the sentence tokenizer. *)
Variable sent_tokenize : string -> list string.

Definition extract_sentences_from_squad_json (squad : squad_json)
  : list (string * string) :=
  let all_sentences :=
    foldl (fun all_sentences d =>
      foldl (fun all_sentences p =>
        let sentences := sent_tokenize (context p) in
        all_sentences
          ++ zip sentences (replicate (length sentences) (context p)))
        all_sentences (paragraphs d))
      [] (data squad) in
  list_of_set all_sentences.

Definition extract_questions_from_squad_json (squad : squad_json)
  : list (string * string) :=
  let questions :=
    foldl (fun questions d =>
      foldl (fun questions p =>
        foldl (fun questions q =>
          match answers q with
          | a0 :: _ => questions ++ [(question q, text a0)]
          | [] => questions
          end)
          questions (qas p))
        questions (paragraphs d))
      [] (data squad) in
  list_of_set questions.

End Extraction.

(** What the guarded [append] of the innermost loop adds for one [qas]
    entry (used to state what the loops collect). *)
Definition qa_pairs (q : qa) : list (string * string) :=
  match answers q with
  | a0 :: _ => [(question q, text a0)]
  | [] => []
  end.

End Squad.

(** ** Embedding computation: the indexing cell *)

Module Indexing.

(** The [simpleneighbors] index as the cell uses it: the dimension and the
    metric given at construction, the items added with their vectors in
    insertion order, and whether [build] has run. *)
Record SimpleNeighbors : Type := MkIndex {
  dims : nat;
  metric : string;
  corpus : list (string * list float);
  built : bool
}.

Definition new_index (dims : nat) (metric : string) : SimpleNeighbors :=
  MkIndex dims metric [] false.

Definition add_one (item : string) (vector : list float)
  (ix : SimpleNeighbors) : SimpleNeighbors :=
  MkIndex (dims ix) (metric ix) (corpus ix ++ [(item, vector)]) (built ix).

Definition build (ix : SimpleNeighbors) : SimpleNeighbors :=
  MkIndex (dims ix) (metric ix) (corpus ix) true.

Definition batch_size : nat := 100.

(** The star-unpacked [zip] of [k] references to ONE iterator over [l]
    (the [slices] of the cell, with [k = batch_size]).  Each
    round of [zip] asks the shared iterator [k] times; [pull] is one such
    round on the remaining elements and fails when the iterator runs dry
    before the round is complete, which ends [zip] and discards what the
    round had taken so far. *)
Fixpoint pull {A : Type} (k : nat) (it : list A) : option (list A * list A) :=
  match k with
  | O => Some ([], it)
  | S k' =>
      match it with
      | [] => None
      | x :: it' =>
          match pull k' it' with
          | Some (t, rest) => Some (x :: t, rest)
          | None => None
          end
      end
  end.

Fixpoint zip_rounds {A : Type} (rounds k : nat) (it : list A)
  : list (list A) :=
  match rounds with
  | O => []
  | S rounds' =>
      match pull k it with
      | Some (t, rest) => t :: zip_rounds rounds' k rest
      | None => []
      end
  end.

(** [zip()] of no iterables yields nothing; otherwise every round takes at
    least one element, so [length l] rounds always reach the end. *)
Definition zip_shared_iter {A : Type} (k : nat) (l : list A) : list (list A) :=
  match k with
  | O => []
  | S _ => zip_rounds (length l) k l
  end.

(** One call of the response encoder: the batch of sentences and the batch
    of contexts it was given. *)
Definition call : Type := (list string * list string)%type.

Section Cell.

(** [model.signatures['response_encoder']]: the pretrained encoder, one
    vector in ['outputs'] per input. *)
Variable response_encoder : list string -> list string -> list (list float).

(** [for batch_index, batch in enumerate(response_batch):
       index.add_one(batch, encodings['outputs'][batch_index])];
    the lookup of a missing output raises. *)
Fixpoint add_batch (outputs : list (list float)) (items : list (nat * string))
  (ix : SimpleNeighbors) : option SimpleNeighbors :=
  match items with
  | [] => Some ix
  | (batch_index, batch) :: items' =>
      match outputs !! batch_index with
      | Some v => add_batch outputs items' (add_one batch v ix)
      | None => None
      end
  end.

(** The body of [for s in tqdm(slices, ...)], threading the index and the
    log of encoder calls. *)
Definition index_slice (s : list (string * string))
  (st : SimpleNeighbors * list call) : option (SimpleNeighbors * list call) :=
  let '(ix, log) := st in
  let response_batch := map fst s in
  let context_batch := map snd s in
  let outputs := response_encoder response_batch context_batch in
  let log := log ++ [(response_batch, context_batch)] in
  match add_batch outputs (enumerate response_batch) ix with
  | Some ix' => Some (ix', log)
  | None => None
  end.

Fixpoint index_slices (slices : list (list (string * string)))
  (st : SimpleNeighbors * list call) : option (SimpleNeighbors * list call) :=
  match slices with
  | [] => Some st
  | s :: slices' =>
      match index_slice s st with
      | Some st' => index_slices slices' st'
      | None => None
      end
  end.

(** The whole cell.  [None] is an uncaught exception ([sentences[0]] on an
    empty list, or an encoder that returns too few outputs).  [tqdm] only
    reports progress while it hands the slices on, and [num_batches] is the
    total it is told to expect; neither changes what the loop does. *)
Definition indexing_cell (sentences : list (string * string))
  : option (SimpleNeighbors * list call) :=
  match sentences !! 0%nat with
  | None => None
  | Some (r0, c0) =>
      let outputs := response_encoder [r0] [c0] in
      let log := [([r0], [c0])] in
      match outputs !! 0%nat with
      | None => None
      | Some v0 =>
          let index := new_index (length v0) "angular" in
          let slices := zip_shared_iter batch_size sentences in
          match index_slices slices (index, log) with
          | Some (index, log) => Some (build index, log)
          | None => None
          end
      end
  end.

(** The pairs handed to the encoder in some call of the log. *)
Definition encoded_pairs (log : list call) : list (string * string) :=
  concat (map (fun c : call => zip (fst c) (snd c)) log).

(** The encoder call one slice gives rise to, and the entries it adds to the
    index (used to state what the loop does). *)
Definition slice_call (s : list (string * string)) : call :=
  (map fst s, map snd s).

Definition slice_entries (s : list (string * string))
  : list (string * list float) :=
  zip (map fst s) (response_encoder (map fst s) (map snd s)).

End Cell.

End Indexing.

(** ** Video catalogue: the download cache *)

Module Ucf.

Definition UCF_ROOT : string := "http://crcv.ucf.edu/THUMOS14/UCF101/UCF101/".

(** What [fetch_ucf_video] can observe and change: the regular files it
    finds and writes (path to contents), the URLs requested so far and the
    lines printed so far.  Directories are not in [files]: the notebook
    creates and removes none, so they enter [Fetch] as fixed parameters. *)
Record world : Type := World {
  files : gmap string (list Byte.byte);
  requests : list string;
  stdout : list string
}.

(** [os.path.join(a, b)] on a POSIX system. *)
Definition path_join (a b : string) : string :=
  if String.prefix "/" b then b
  else if (String.eqb a "" || String.prefix "/" (String.rev a))%bool then a +:+ b
  else a +:+ "/" +:+ b.

Definition print (line : string) (w : world) : world :=
  World (files w) (requests w) (stdout w ++ [line]).

Definition request (url : string) (w : world) : world :=
  World (files w) (requests w ++ [url]) (stdout w).

(** What [open(p, 'wb').write(data)] leaves behind once the file could be
    opened. *)
Definition write_file (p : string) (contents : list Byte.byte) (w : world)
  : world :=
  World (<[p := contents]> (files w)) (requests w) (stdout w).

Section Fetch.

(** [_CACHE_DIR = tempfile.mkdtemp()] *)
Variable _CACHE_DIR : string.

(** [request.urljoin] *)
Variable urljoin : string -> string -> string.

(** [request.urlopen(url).read()]: the body served at [url], or [None] when
    the request raises. *)
Variable urlopen_read : string -> option (list Byte.byte).

(** The paths that name an existing directory (the cache directory itself,
    under each of its spellings, among them). *)
Variable is_dir : string -> bool.

(** Whether [open(p, 'wb')] succeeds on a path that does not exist yet:
    its parent directory exists and can be written to. *)
Variable open_wb : string -> bool.

(** [os.path.exists(p)]: [p] names a file or a directory. *)
Definition path_exists (p : string) (w : world) : bool :=
  bool_decide (is_Some (files w !! p)) || is_dir p.

(** The result is the returned path, or [None] when the download or the
    opening of the file raised; the world is the one left behind in either
    case. *)
Definition fetch_ucf_video (video : string) (w : world)
  : option string * world :=
  let cache_path := path_join _CACHE_DIR video in
  if negb (path_exists cache_path w) then
    let urlpath := urljoin UCF_ROOT video in
    let w := print ("Fetching " +:+ urlpath +:+ " => " +:+ cache_path) w in
    let w := request urlpath w in
    match urlopen_read urlpath with
    | Some contents =>
        if open_wb cache_path
        then (Some cache_path, write_file cache_path contents w)
        else (None, w)
    | None => (None, w)
    end
  else (Some cache_path, w).

End Fetch.

End Ucf.

(** ** Video frames: cropping, loading and normalising *)

Module Video.

(** A colour pixel: the three channel values along the last axis. *)
Record pixel (A : Type) : Type := Pixel { ch0 : A; ch1 : A; ch2 : A }.
Arguments Pixel {A} _ _ _.
Arguments ch0 {A} _.
Arguments ch1 {A} _.
Arguments ch2 {A} _.

(** A frame is an array of rows of pixels. *)
Definition frame (A : Type) : Type := list (list (pixel A)).

(** [frame.shape[0:2]] *)
Definition shape2 {A : Type} (f : list (list A)) : Z * Z :=
  (Z.of_nat (length f), Z.of_nat (length (hd [] f))).

Definition crop_center_square {A : Type} (f : list (list A)) : list (list A) :=
  let '(y, x) := shape2 f in
  let min_dim := Z.min y x in
  let start_x := (x / 2) - (min_dim / 2) in
  let start_y := (y / 2) - (min_dim / 2) in
  map (fun row => lslice row start_x (start_x + min_dim))
      (lslice f start_y (start_y + min_dim)).

(** [frame[:, :, [2, 1, 0]]] *)
Definition reorder_channels {A : Type} (f : frame A) : frame A :=
  map (map (fun p => Pixel (ch2 p) (ch1 p) (ch0 p))) f.

(** An 8-bit value as a float, divided by [255.0]. *)
Definition normalize (v : Z) : float :=
  PrimFloat.div (PrimFloat.of_uint63 (Uint63.of_Z v)) 255%float.

Definition map_pixel {A B : Type} (g : A -> B) (p : pixel A) : pixel B :=
  Pixel (g (ch0 p)) (g (ch1 p)) (g (ch2 p)).

Section Load.

(** [cv2.resize] *)
Variable cv2_resize : frame Z -> Z * Z -> frame Z.

(** The [while True:] of [load_video].  [cap] holds the frames the capture
    has yet to deliver; [cap.read()] hands out the next one, or reports
    failure when none is left. *)
Fixpoint read_frames (cap : list (frame Z)) (frames : list (frame Z))
  (max_frames : Z) (resize : Z * Z) : list (frame Z) :=
  match cap with
  | [] => frames
  | f :: cap' =>
      let f := crop_center_square f in
      let f := cv2_resize f resize in
      let f := reorder_channels f in
      let frames := frames ++ [f] in
      if Z.of_nat (length frames) =? max_frames then frames
      else read_frames cap' frames max_frames resize
  end.

(** [np.array(frames) / 255.0] *)
Definition load_video (cap : list (frame Z)) (max_frames : Z)
  (resize : Z * Z) : list (frame float) :=
  let frames := read_frames cap [] max_frames resize in
  map (map (map (map_pixel normalize))) frames.

End Load.

(** A property of every channel value of a pixel, of a frame. *)
Definition pixel_all {A : Type} (P : A -> Prop) (p : pixel A) : Prop :=
  P (ch0 p) /\ P (ch1 p) /\ P (ch2 p).

Definition frame_all {A : Type} (P : A -> Prop) (f : frame A) : Prop :=
  Forall (Forall (pixel_all P)) f.

(** The values of dtype [uint8]. *)
Definition is_uint8 (v : Z) : Prop := 0 <= v <= 255.

(** The closed unit interval of floats. *)
Definition in_unit_interval (x : float) : Prop :=
  PrimFloat.leb 0%float x = true /\ PrimFloat.leb x 1%float = true.

End Video.

(** ** Action recognition: the top-5 report *)

Module Report.

(** The classifier's tensors hold single-precision floats: binary32, 24
    bits of precision, exponents below 128. *)
Definition float32 : Type := spec_float.

(** The product of two single-precision floats, rounded to nearest even. *)
Definition mul32 (x y : float32) : float32 := SFmul 24 128 x y.

(** [100] as a single-precision float. *)
Definition hundred : float32 := S754_finite false 13107200 (-17).

(** What [predict] prints: the heading, then one line per reported class with
    its label and its percentage (the value that the format specification
    [5.2f] renders). *)
Inductive line : Type :=
| Heading
| Action (label : string) (percent : float32).

(** How a call ends: it returns, or an uncaught exception leaves it. *)
Inductive outcome : Type :=
| Returned
| Raised.

(** [probabilities[a] <= probabilities[b]], both being defined. *)
Definition prob_le (probabilities : list float32) (a b : nat) : bool :=
  match probabilities !! a, probabilities !! b with
  | Some pa, Some pb => SFleb pa pb
  | _, _ => false
  end.

Section Predict.

(** The decoded sample video, whatever its representation. *)
Variable video : Type.

(** [i3d(model_input)['default']]: one logits vector per batch entry. *)
Variable i3d : list video -> list (list float32).

(** [tf.nn.softmax] *)
Variable softmax : list float32 -> list float32.

(** [np.argsort] *)
Variable argsort : list float32 -> list nat.

(** The Kinetics label list, position being the class id. *)
Variable labels : list string.

(** The line the body of the [for] loop prints for class [i]; a missing
    label or probability raises instead. *)
Definition report_line (probabilities : list float32) (i : nat)
  : option line :=
  match labels !! i, probabilities !! i with
  | Some l, Some p => Some (Action l (mul32 p hundred))
  | _, _ => None
  end.

(** The [for] loop over the selected classes: each line is printed as soon
    as it is formed, so an exception leaves the earlier lines printed. *)
Fixpoint print_lines (probabilities : list float32) (classes : list nat)
  (stdout : list line) : list line * outcome :=
  match classes with
  | [] => (stdout, Returned)
  | i :: classes' =>
      match report_line probabilities i with
      | Some l => print_lines probabilities classes' (stdout ++ [l])
      | None => (stdout, Raised)
      end
  end.

(** The lines printed, and how the call ended. *)
Definition predict (sample_video : video) : list line * outcome :=
  let model_input := [sample_video] in
  match i3d model_input !! 0%nat with
  | None => ([], Raised)
  | Some logits =>
      let probabilities := softmax logits in
      let stdout := [Heading] in
      print_lines probabilities
        (take 5 (reverse (argsort probabilities))) stdout
  end.

End Predict.

End Report.

(** ** What [output_with_highlight] computes, as a relation

    [wrapped h text body]: [body] is [text] with the occurrences of [h]
    found by scanning from the left, each one the leftmost in what is left
    of the text after the previous one, wrapped the way the loop wraps
    them. *)

Inductive wrapped (h : string) : string -> string -> Prop :=
| wrapped_rest (text : string) :
    (forall pre post, text <> pre +:+ h +:+ post) ->
    wrapped h text text
| wrapped_occurrence (pre post body : string) :
    (forall pre' post', pre +:+ h +:+ post = pre' +:+ h +:+ post' ->
       (String.length pre <= String.length pre')%nat) ->
    wrapped h post body ->
    wrapped h (pre +:+ h +:+ post) (pre +:+ "<b>" +:+ h +:+ "<b>" +:+ body).

(** ** Retrieval: [display_nearest_neighbors] *)

Module Retrieval.

Definition num_results : nat := 25.

(** The truth value of [answer_text]: [None] and the empty text are false. *)
Definition truthy (answer_text : option string) : bool :=
  match answer_text with
  | Some (String _ _) => true
  | _ => false
  end.

(** The eight blanks that indent the lines of the triple-quoted literals. *)
Definition indent : string := "        ".

Definition question_md (query_text : string) : string :=
  Py.nl +:+ indent +:+ "<p>Random Question from SQuAD:</p>"
  +:+ Py.nl +:+ indent +:+ "<p>&nbsp;&nbsp;<b>" +:+ query_text +:+ "</b></p>"
  +:+ Py.nl +:+ indent.

Definition question_answer_md (query_text answer_text : string) : string :=
  Py.nl +:+ indent +:+ "<p>Random Question from SQuAD:</p>"
  +:+ Py.nl +:+ indent +:+ "<p>&nbsp;&nbsp;<b>" +:+ query_text +:+ "</b></p>"
  +:+ Py.nl +:+ indent +:+ "<p>Answer:</p>"
  +:+ Py.nl +:+ indent +:+ "<p>&nbsp;&nbsp;<b>" +:+ answer_text +:+ "</b></p>"
  +:+ Py.nl +:+ indent.

Definition retrieved_md : string :=
  Py.nl +:+ indent +:+ "<p>Retrieved sentences:"
  +:+ Py.nl +:+ indent +:+ "<ol>"
  +:+ Py.nl +:+ indent.

(** [for s in search_results: result_md += output_with_highlight(s, answer_text)];
    [None] when some call is still running after [fuel] passes. *)
Fixpoint add_highlighted (fuel : nat) (answer_text : string)
  (search_results : list string) (result_md : string) : option string :=
  match search_results with
  | [] => Some result_md
  | s :: search_results' =>
      match Highlight.output_with_highlight fuel s answer_text with
      | Some item =>
          add_highlighted fuel answer_text search_results' (result_md +:+ item)
      | None => None
      end
  end.

(** [for s in search_results: result_md += '<li>' + s + '</li>\n'] *)
Fixpoint add_plain (search_results : list string) (result_md : string)
  : string :=
  match search_results with
  | [] => result_md
  | s :: search_results' =>
      add_plain search_results'
        (result_md +:+ ("<li>" +:+ s +:+ "</li>" +:+ Py.nl))
  end.

Section Display.

(** [model.signatures['question_encoder']], its ['outputs']. *)
Variable question_encoder : list string -> list (list float).

(** [index.nearest(query_embedding, n=...)] on the built index. *)
Variable index_nearest : list float -> nat -> list string.

(** The HTML handed to [display(HTML(...))].  [None] is an [IndexError] on
    the encoder's outputs, or a highlighting loop still running after
    [fuel] passes. *)
Definition display_nearest_neighbors (fuel : nat) (query_text : string)
  (answer_text : option string) : option string :=
  match question_encoder [query_text] !! 0%nat with
  | None => None
  | Some query_embedding =>
      let search_results := index_nearest query_embedding num_results in
      let result_md :=
        if truthy answer_text
        then question_answer_md query_text (default "" answer_text)
        else question_md query_text in
      let result_md := result_md +:+ retrieved_md in
      let result_md :=
        if truthy answer_text
        then add_highlighted fuel (default "" answer_text)
               search_results result_md
        else Some (add_plain search_results result_md) in
      match result_md with
      | Some result_md => Some (result_md +:+ "</ol>")
      | None => None
      end
  end.

End Display.

End Retrieval.

(** ** The video catalogue: listing and grouping *)

Module Catalogue.

(** [sorted(set(videos))]: the distinct names in ascending order.  Strings
    compare character by character, and a total order leaves one sorted
    arrangement of distinct names only. *)
Definition sorted_set (videos : list string) : list string :=
  merge_sort String.le (elements (list_to_set videos : gset string)).

(** The truth value of [not _VIDEO_LIST]: [None] and the empty list. *)
Definition not_video_list (video_list : option (list string)) : bool :=
  match video_list with
  | Some (_ :: _) => false
  | _ => true
  end.

Section Listing.

(** [request.urlopen(url).read().decode('utf-8')], or [None] when the
    request or the decoding raises. *)
Variable urlopen_text : string -> option string.

(** [re.findall] with the pattern of the video names. *)
Variable findall_videos : string -> list string.

(** The result is the returned list ([None] when the download raised), with
    the global [_VIDEO_LIST] and the world left behind. *)
Definition list_ucf_videos (_VIDEO_LIST : option (list string))
  (w : Ucf.world) : option (list string) * option (list string) * Ucf.world :=
  if not_video_list _VIDEO_LIST then
    let w := Ucf.request Ucf.UCF_ROOT w in
    match urlopen_text Ucf.UCF_ROOT with
    | Some index =>
        let videos := findall_videos index in
        let _VIDEO_LIST := sorted_set videos in
        (Some _VIDEO_LIST, Some _VIDEO_LIST, w)
    | None => (None, _VIDEO_LIST, w)
    end
  else (_VIDEO_LIST, _VIDEO_LIST, w).

End Listing.

(** [video[2:-12]] *)
Definition category (video : string) : string := Py.slice video 2 (-12).

(** The body of [for video in ucf_videos:]. *)
Definition add_video (categories : gmap string (list string))
  (video : string) : gmap string (list string) :=
  let category := category video in
  let categories :=
    match categories !! category with
    | None => <[category := []]> categories
    | Some _ => categories
    end in
  alter (fun sequences => sequences ++ [video]) category categories.

Definition group_videos (ucf_videos : list string)
  : gmap string (list string) :=
  foldl add_video ∅ ucf_videos.

(** The two numbers of the line [Found %d videos in %d categories.] *)
Definition found_counts (ucf_videos : list string) : nat * nat :=
  (length ucf_videos, size (group_videos ucf_videos)).

End Catalogue.

(** ** [to_gif]: back to 8-bit frames *)

Module Gif.

(** [np.clip(x, lo, hi)] on one value: a NaN stays a NaN. *)
Definition clip (x lo hi : float) : float :=
  if PrimFloat.is_nan x then x
  else
    let y := if PrimFloat.ltb x lo then lo else x in
    if PrimFloat.ltb hi y then hi else y.

(** [astype(np.uint8)] on one value: the fraction is cut off; the result is
    defined for finite values only. *)
Definition astype_uint8 (x : float) : option Z :=
  match Prim2SF x with
  | S754_zero _ => Some 0
  | S754_finite s m e =>
      let a := if 0 <=? e then Z.pos m * 2 ^ e else Z.pos m / 2 ^ (- e) in
      Some ((if s then - a else a) mod 256)
  | _ => None
  end.

Definition convert_value (x : float) : option Z :=
  astype_uint8 (clip (PrimFloat.mul x 255%float) 0%float 255%float).

Definition convert_pixel (p : Video.pixel float) : option (Video.pixel Z) :=
  match convert_value (Video.ch0 p), convert_value (Video.ch1 p),
        convert_value (Video.ch2 p) with
  | Some a, Some b, Some c => Some (Video.Pixel a b c)
  | _, _, _ => None
  end.

(** [np.clip(images * 255, 0, 255).astype(np.uint8)] *)
Definition converted_images (images : list (Video.frame float))
  : option (list (Video.frame Z)) :=
  mapM (mapM (mapM convert_pixel)) images.

Section ToGif.

(** The file system and the embedded HTML, as [imageio] and
    [tensorflow_docs] see them. *)
Variable world : Type.
Variable html : Type.

(** [imageio.mimsave(path, frames, fps=...)] *)
Variable mimsave : string -> list (Video.frame Z) -> Z -> world -> world.

(** [embed.embed_file(path)] *)
Variable embed_file : string -> world -> html.

Definition to_gif (images : list (Video.frame float)) (w : world)
  : option (html * world) :=
  match converted_images images with
  | Some converted_images =>
      let w := mimsave "./animation.gif" converted_images 25 w in
      Some (embed_file "./animation.gif" w, w)
  | None => None
  end.

End ToGif.

End Gif.

(** * Properties *)

(** ** Strings: occurrences, [find] and slices *)

Section StringFacts.

(** stdpp keeps [+:+] from unfolding under [simpl]; its two equations. *)
Lemma append_nil (b : string) : "" +:+ b = b.
Proof. reflexivity. Qed.

Lemma append_cons (x : ascii) (a b : string) :
  String x a +:+ b = String x (a +:+ b).
Proof. reflexivity. Qed.

Lemma length_append (a b : string) :
  String.length (a +:+ b) = (String.length a + String.length b)%nat.
Proof.
  induction a as [|c a IH]; [reflexivity|].
  rewrite append_cons. simpl. now rewrite IH.
Qed.

Lemma append_assoc (a b c : string) : (a +:+ b) +:+ c = a +:+ (b +:+ c).
Proof.
  induction a as [|x a IH]; [reflexivity|].
  rewrite !append_cons. now rewrite IH.
Qed.

Lemma append_empty_r (a : string) : a +:+ "" = a.
Proof.
  induction a as [|x a IH]; [reflexivity|].
  rewrite !append_cons. now rewrite IH.
Qed.

Lemma substring_all (a : string) : String.substring 0 (String.length a) a = a.
Proof.
  induction a as [|x a IH]; simpl; [reflexivity | now rewrite IH].
Qed.

Lemma substring_head (a b : string) :
  String.substring 0 (String.length a) (a +:+ b) = a.
Proof.
  induction a as [|x a IH].
  - destruct b; reflexivity.
  - rewrite append_cons. simpl. now rewrite IH.
Qed.

Lemma substring_skip (a b : string) (m : nat) :
  String.substring (String.length a) m (a +:+ b) = String.substring 0 m b.
Proof.
  induction a as [|x a IH]; [reflexivity|].
  rewrite append_cons. simpl. exact IH.
Qed.

(** A true [prefix] test exhibits the rest of the string, and conversely. *)
Lemma prefix_true_app (h s : string) :
  String.prefix h s = true <-> exists post, s = h +:+ post.
Proof.
  rewrite String.prefix_correct. split.
  - revert s. induction h as [|x h IH]; intros s Hs.
    + exists s. reflexivity.
    + destruct s as [|y s]; simpl in Hs; [discriminate|].
      injection Hs as -> Hs. destruct (IH s Hs) as [post ->].
      exists post. reflexivity.
  - intros [post ->]. apply substring_head.
Qed.

(** The two equations of [String.index 0], with [prefix] left folded. *)
Lemma index_empty (h : string) :
  String.index 0 h "" = match h with "" => Some 0%nat | String _ _ => None end.
Proof. reflexivity. Qed.

Lemma index_cons (h : string) (b : ascii) (s : string) :
  String.index 0 h (String b s) =
  if String.prefix h (String b s) then Some 0%nat
  else match String.index 0 h s with
       | Some n => Some (S n)
       | None => None
       end.
Proof. reflexivity. Qed.

(** [String.index 0] finds an occurrence when it answers [Some]... *)
Lemma index_Some_occurrence (h s : string) (n : nat) :
  String.index 0 h s = Some n ->
  exists pre post, s = pre +:+ h +:+ post /\ String.length pre = n.
Proof.
  revert n. induction s as [|b s IH]; intros n.
  - rewrite index_empty. destruct h; [|discriminate].
    intros [= <-]. exists "", "". split; reflexivity.
  - rewrite index_cons.
    destruct (String.prefix h (String b s)) eqn:Hp.
    + intros [= <-]. apply prefix_true_app in Hp as [post ->].
      exists "", post. split; reflexivity.
    + destruct (String.index 0 h s) as [m|]; [|discriminate].
      intros [= <-]. destruct (IH m eq_refl) as (pre & post & -> & <-).
      exists (String b pre), post. split; reflexivity.
Qed.

(** ... and answers [None] only when there is none. *)
Lemma index_None_no_occurrence (h s : string) :
  String.index 0 h s = None -> forall pre post, s <> pre +:+ h +:+ post.
Proof.
  induction s as [|b s IH].
  - rewrite index_empty. destruct h; [discriminate|].
    intros _ [|? ?] post; discriminate.
  - rewrite index_cons.
    destruct (String.prefix h (String b s)) eqn:Hp; [discriminate|].
    destruct (String.index 0 h s) as [m|] eqn:Hi; [discriminate|].
    intros _ pre post Heq. destruct pre as [|c pre].
    + rewrite append_nil in Heq.
      assert (String.prefix h (String b s) = true) as Hp'
        by (apply prefix_true_app; eauto).
      congruence.
    + rewrite append_cons in Heq. injection Heq as _ Heq.
      exact (IH eq_refl pre post Heq).
Qed.

Lemma find_cases (text h : string) :
  (Py.find text h = -1 /\ forall pre post, text <> pre +:+ h +:+ post)
  \/ exists pre post,
       text = pre +:+ h +:+ post /\ Py.find text h = Z.of_nat (String.length pre).
Proof.
  unfold Py.find. destruct (String.index 0 h text) as [n|] eqn:Hi.
  - right. destruct (index_Some_occurrence _ _ _ Hi) as (pre & post & -> & <-).
    eauto.
  - left. split; [reflexivity|]. now apply index_None_no_occurrence.
Qed.

Lemma find_no_occurrence (text h : string) :
  (forall pre post, text <> pre +:+ h +:+ post) -> Py.find text h = -1.
Proof.
  intros Hno. destruct (find_cases text h) as [[H _]|(pre & post & H & _)].
  - exact H.
  - destruct (Hno pre post H).
Qed.

Lemma find_empty (text : string) : Py.find text "" = 0.
Proof.
  unfold Py.find. destruct text as [|c text]; reflexivity.
Qed.

(** The three slices the loop takes around an occurrence. *)
Lemma slice_before (pre rest : string) :
  Py.slice (pre +:+ rest) 0 (Z.of_nat (String.length pre)) = pre.
Proof.
  unfold Py.slice, Py.bound, Py.len. rewrite length_append.
  replace (0 <? 0) with false by reflexivity.
  destruct (Z.ltb_spec (Z.of_nat (String.length pre)) 0); [lia|].
  rewrite !Z.min_l by lia. rewrite Z.sub_0_r, Nat2Z.id. simpl Z.to_nat.
  apply substring_head.
Qed.

Lemma slice_occurrence (pre h post : string) :
  let i := Z.of_nat (String.length pre) in
  Py.slice (pre +:+ h +:+ post) i (i + Py.len h) = h.
Proof.
  intros i. unfold Py.slice, Py.bound, Py.len, i. rewrite !length_append.
  destruct (Z.ltb_spec (Z.of_nat (String.length pre)) 0); [lia|].
  destruct (Z.ltb_spec
    (Z.of_nat (String.length pre) + Z.of_nat (String.length h)) 0); [lia|].
  rewrite !Z.min_l by lia.
  replace (Z.of_nat (String.length pre) + Z.of_nat (String.length h)
           - Z.of_nat (String.length pre)) with (Z.of_nat (String.length h))
    by lia.
  rewrite !Nat2Z.id, substring_skip. apply substring_head.
Qed.

Lemma slice_after (pre h post : string) :
  Py.slice_from (pre +:+ h +:+ post)
    (Z.of_nat (String.length pre) + Py.len h) = post.
Proof.
  unfold Py.slice_from, Py.slice, Py.bound, Py.len. rewrite !length_append.
  destruct (Z.ltb_spec
    (Z.of_nat (String.length pre) + Z.of_nat (String.length h)) 0); [lia|].
  destruct (Z.ltb_spec (Z.of_nat
    (String.length pre + (String.length h + String.length post))) 0); [lia|].
  rewrite !Z.min_l by lia.
  replace (Z.to_nat (Z.of_nat (String.length pre) + Z.of_nat (String.length h)))
    with (String.length (pre +:+ h)) by (rewrite length_append; lia).
  replace (Z.to_nat _) with (String.length post) by lia.
  rewrite <- append_assoc, substring_skip. apply substring_all.
Qed.

End StringFacts.

(** ** [output_with_highlight] *)

Section HighlightFacts.

Import Highlight.

Lemma loop_body_break (h text output : string) :
  loop_body h text output (-1) = Break (output +:+ text).
Proof. reflexivity. Qed.

(** A pass that starts at an occurrence copies what precedes it, wraps it
    and goes on with what follows it. *)
Lemma loop_body_occurrence (h pre post output : string) :
  loop_body h (pre +:+ h +:+ post) output (Z.of_nat (String.length pre)) =
  Again post ((output +:+ pre) +:+ ("<b>" +:+ h +:+ "<b>")) (Py.find post h).
Proof.
  unfold loop_body.
  destruct (Z.eqb_spec (Z.of_nat (String.length pre)) (-1)) as [E|_]; [lia|].
  now rewrite slice_before, slice_occurrence, slice_after.
Qed.

Lemma while_true_S (fuel : nat) (h text output : string) (i : Z) :
  while_true (S fuel) h text output i =
  match loop_body h text output i with
  | Break output' => Some output'
  | Again text' output' i' => while_true fuel h text' output' i'
  end.
Proof. reflexivity. Qed.

(** With a non-empty highlight the loop is done within [length text + 1]
    passes, and more fuel does not change its result. *)
Lemma while_true_terminates (h : string) (Hne : h <> "") (n : nat) :
  forall text output, (String.length text <= n)%nat ->
  exists out, forall fuel, (String.length text < fuel)%nat ->
    while_true fuel h text output (Py.find text h) = Some out.
Proof.
  induction n as [|n IH]; intros text output Hlen.
  - destruct (find_cases text h) as [[Hf _]|(pre & post & -> & Hf)].
    + exists (output +:+ text). intros [|fuel] Hfuel; [lia|].
      now rewrite while_true_S, Hf, loop_body_break.
    + destruct h as [|c h]; [congruence|].
      rewrite !length_append in Hlen. simpl in Hlen. lia.
  - destruct (find_cases text h) as [[Hf _]|(pre & post & -> & Hf)].
    + exists (output +:+ text). intros [|fuel] Hfuel; [lia|].
      now rewrite while_true_S, Hf, loop_body_break.
    + assert (0 < String.length h)%nat as Hh
        by (destruct h; [congruence | simpl; lia]).
      rewrite !length_append in Hlen.
      destruct (IH post ((output +:+ pre) +:+ ("<b>" +:+ h +:+ "<b>")))
        as [out Hout]; [lia|].
      exists out. intros [|fuel] Hfuel; [lia|].
      rewrite !length_append in Hfuel.
      rewrite while_true_S, Hf, loop_body_occurrence. apply Hout. lia.
Qed.

(** With an empty highlight every pass finds it at index 0 and keeps the
    whole text: no amount of fuel ends the loop. *)
Lemma while_true_empty_highlight (fuel : nat) :
  forall text output, while_true fuel "" text output 0 = None.
Proof.
  induction fuel as [|fuel IH]; intros text output; [reflexivity|].
  rewrite while_true_S.
  change 0 with (Z.of_nat (String.length "")) at 1.
  change text with ("" +:+ "" +:+ text) at 1.
  rewrite loop_body_occurrence, find_empty. apply IH.
Qed.

(** Whatever the loop returns starts with the output it was entered with. *)
Lemma while_true_extends (h : string) (fuel : nat) :
  forall text output i out,
  while_true fuel h text output i = Some out ->
  exists rest, out = output +:+ rest.
Proof.
  induction fuel as [|fuel IH]; intros text output i out; [discriminate|].
  rewrite while_true_S. unfold loop_body. destruct (i =? -1).
  - intros [= <-]. eauto.
  - intros H. apply IH in H as [rest ->].
    rewrite !append_assoc. eauto.
Qed.

(** C2: at the text "a" with the highlight "a" the function returns the
    occurrence between two opening tags, not between an opening and a
    closing tag; and in general, whenever the non-empty highlight occurs in
    the text, the result copies what precedes an occurrence and then has
    the occurrence followed by a second "<b>". *)
Theorem output_with_highlight_closing_tag :
  output_with_highlight 2 "a" "a" = Some ("<li> <b>a<b></li>" +:+ Py.nl)
  /\ output_with_highlight 2 "a" "a" <> Some ("<li> <b>a</b></li>" +:+ Py.nl)
  /\ (forall text highlight pre post,
        highlight <> "" -> text = pre +:+ highlight +:+ post ->
        exists pre' post' rest,
          text = pre' +:+ highlight +:+ post'
          /\ forall fuel, (String.length text < fuel)%nat ->
               output_with_highlight fuel text highlight
               = Some ("<li> " +:+ pre' +:+ "<b>" +:+ highlight +:+ "<b>"
                       +:+ rest)).
Proof.
  split; [reflexivity|]. split; [discriminate|].
  intros text h pre post Hne Htext.
  destruct (find_cases text h) as [[_ Hno]|(pre' & post' & Ht & Hf)];
    [destruct (Hno pre post Htext)|].
  destruct (while_true_terminates h Hne (String.length post') post'
              (("<li> " +:+ pre') +:+ ("<b>" +:+ h +:+ "<b>")) (le_n _))
    as [out Hout].
  destruct (while_true_extends h _ _ _ _ _ (Hout _ (Nat.lt_succ_diag_r _)))
    as [rest ->].
  exists pre', post', (rest +:+ "</li>" +:+ Py.nl). split; [exact Ht|].
  intros [|fuel] Hfuel; [lia|].
  unfold output_with_highlight. rewrite Hf, while_true_S.
  rewrite Ht at 1. rewrite loop_body_occurrence, Hout.
  - now rewrite !append_assoc.
  - rewrite Ht, !length_append in Hfuel.
    assert (0 < String.length h)%nat
      by (destruct h; [congruence | simpl; lia]).
    lia.
Qed.

(** C3: when the non-empty highlight does not occur in the text, the result
    is the text itself between the list-item markup, nothing inserted. *)
Theorem output_with_highlight_absent (text highlight : string) (fuel : nat) :
  highlight <> "" ->
  (forall pre post, text <> pre +:+ highlight +:+ post) ->
  (0 < fuel)%nat ->
  output_with_highlight fuel text highlight
  = Some ("<li> " +:+ text +:+ "</li>" +:+ Py.nl).
Proof.
  intros _ Hno Hfuel. destruct fuel as [|fuel]; [lia|].
  unfold output_with_highlight.
  rewrite (find_no_occurrence _ _ Hno), while_true_S, loop_body_break.
  now rewrite append_assoc.
Qed.

Lemma output_with_highlight_absent_witness :
  "b" <> "" /\
  output_with_highlight 1 "xyz" "b" = Some ("<li> " +:+ "xyz" +:+ "</li>" +:+ Py.nl).
Proof.
  split; [discriminate|].
  apply (output_with_highlight_absent "xyz" "b" 1%nat).
  - discriminate.
  - intros pre post H.
    destruct pre as [|a [|b [|c [|d pre]]]], post as [|e [|f [|g post]]];
      discriminate.
  - lia.
Defined.

(** C10: for a non-empty highlight, a pass that does not break leaves a
    remaining text shorter by at least the length of the highlight, and the
    function returns a result, the same for every fuel above the length of
    the text; with the empty highlight it returns for no fuel at all. *)
Theorem output_with_highlight_terminates (text highlight : string) :
  highlight <> "" ->
  (forall output,
     match loop_body highlight text output (Py.find text highlight) with
     | Break _ => True
     | Again text' _ i' =>
         Py.len text' + Py.len highlight <= Py.len text
         /\ Py.len text' < Py.len text
         /\ i' = Py.find text' highlight
     end)
  /\ (exists out, forall fuel, (String.length text < fuel)%nat ->
        output_with_highlight fuel text highlight = Some out)
  /\ (forall t fuel, output_with_highlight fuel t "" = None).
Proof.
  intros Hne. split; [|split].
  - intros output.
    destruct (find_cases text highlight) as [[Hf _]|(pre & post & -> & Hf)].
    + now rewrite Hf, loop_body_break.
    + rewrite Hf, loop_body_occurrence. unfold Py.len.
      rewrite !length_append.
      assert (0 < String.length highlight)%nat
        by (destruct highlight; [congruence | simpl; lia]).
      repeat split; lia.
  - destruct (while_true_terminates highlight Hne (String.length text)
                text "<li> " (le_n _)) as [out Hout].
    exists (out +:+ "</li>" +:+ Py.nl). intros fuel Hfuel.
    unfold output_with_highlight. now rewrite (Hout fuel Hfuel).
  - intros t fuel. unfold output_with_highlight.
    now rewrite find_empty, while_true_empty_highlight.
Qed.

Lemma output_with_highlight_terminates_witness :
  "a" <> "" /\
  exists out, forall fuel, (6 < fuel)%nat ->
    output_with_highlight fuel "xaybaz" "a" = Some out.
Proof.
  split; [discriminate|].
  apply (output_with_highlight_terminates "xaybaz" "a"). discriminate.
Defined.

End HighlightFacts.

(** ** SQuAD extraction *)

Section SquadFacts.

Import Squad.

Variable sent_tokenize : string -> list string.

(** A loop that only ever extends its accumulator collects, after the
    initial accumulator, what each element contributes, in order. *)
Lemma foldl_extend {A B : Type} (g : list B -> A -> list B)
  (f : A -> list B) (l : list A) :
  (forall acc x, g acc x = acc ++ f x) ->
  forall acc, foldl g acc l = acc ++ (l ≫= f).
Proof.
  intros Hg. induction l as [|x l IH]; intros acc; simpl.
  - now rewrite app_nil_r.
  - now rewrite IH, Hg, <- app_assoc.
Qed.

Lemma list_of_set_elem (x : string * string) (l : list (string * string)) :
  x ∈ list_of_set l <-> x ∈ l.
Proof. unfold list_of_set. now rewrite elem_of_elements, elem_of_list_to_set. Qed.

Lemma list_of_set_NoDup (l : list (string * string)) : NoDup (list_of_set l).
Proof. unfold list_of_set. apply NoDup_elements. Qed.

Lemma extract_questions_unfold (squad : squad_json) :
  extract_questions_from_squad_json squad =
  list_of_set (data squad ≫= fun d => paragraphs d ≫= fun p => qas p ≫= qa_pairs).
Proof.
  unfold extract_questions_from_squad_json. f_equal.
  rewrite (foldl_extend _
    (fun d => paragraphs d ≫= fun p => qas p ≫= qa_pairs)); [reflexivity|].
  intros acc d.
  rewrite (foldl_extend _ (fun p => qas p ≫= qa_pairs)); [reflexivity|].
  intros acc' p. rewrite (foldl_extend _ qa_pairs); [reflexivity|].
  intros acc'' q. unfold qa_pairs.
  destruct (answers q); [now rewrite app_nil_r | reflexivity].
Qed.

(** C4: both extraction outputs list every pair at most once. *)
Theorem extraction_outputs_NoDup (squad : squad_json) :
  NoDup (extract_sentences_from_squad_json sent_tokenize squad)
  /\ NoDup (extract_questions_from_squad_json squad).
Proof. split; apply list_of_set_NoDup. Qed.

(** C5: a pair is among the extracted questions exactly when some [qas]
    entry of some paragraph carries that question and a non-empty answer
    list whose first answer has that text; when every entry has an empty
    answer list, nothing is extracted. *)
Theorem extract_questions_spec (squad : squad_json) (q a : string) :
  ((q, a) ∈ extract_questions_from_squad_json squad <->
   exists d p e a0 rest,
     d ∈ data squad /\ p ∈ paragraphs d /\ e ∈ qas p
     /\ answers e = a0 :: rest /\ question e = q /\ text a0 = a)
  /\ ((forall d p e, d ∈ data squad -> p ∈ paragraphs d -> e ∈ qas p ->
         answers e = []) ->
      extract_questions_from_squad_json squad = []).
Proof.
  assert (forall x, x ∈ extract_questions_from_squad_json squad <->
    exists d p e, d ∈ data squad /\ p ∈ paragraphs d /\ e ∈ qas p
                  /\ x ∈ qa_pairs e) as Hmem.
  { intros x. rewrite extract_questions_unfold, list_of_set_elem.
    rewrite list_elem_of_bind. split.
    - intros (d & Hx & Hd). apply list_elem_of_bind in Hx as (p & Hx & Hp).
      apply list_elem_of_bind in Hx as (e & Hx & He). eauto 8.
    - intros (d & p & e & Hd & Hp & He & Hx). exists d. split; [|exact Hd].
      apply list_elem_of_bind. exists p. split; [|exact Hp].
      apply list_elem_of_bind. eauto. }
  split.
  - rewrite Hmem. split.
    + intros (d & p & e & Hd & Hp & He & Hx). unfold qa_pairs in Hx.
      destruct (answers e) as [|a0 rest] eqn:Ha.
      * now apply elem_of_nil in Hx.
      * apply list_elem_of_singleton in Hx. injection Hx as -> ->.
        exists d, p, e, a0, rest. eauto 8.
    + intros (d & p & e & a0 & rest & Hd & Hp & He & Ha & <- & <-).
      exists d, p, e. repeat split; try assumption.
      unfold qa_pairs. rewrite Ha. apply list_elem_of_singleton. reflexivity.
  - intros Hempty. apply elem_of_nil_inv. intros x Hx.
    apply Hmem in Hx as (d & p & e & Hd & Hp & He & Hx).
    unfold qa_pairs in Hx. rewrite (Hempty d p e Hd Hp He) in Hx.
    now apply elem_of_nil in Hx.
Qed.

End SquadFacts.

(** ** The indexing cell *)

Section ZipFacts.

Import Indexing.

Context {A : Type}.

Lemma pull_Some (k : nat) : forall it : list A,
  (k <= length it)%nat -> pull k it = Some (take k it, drop k it).
Proof.
  induction k as [|k IH]; intros it Hk; simpl.
  - now rewrite drop_0.
  - destruct it as [|x it]; simpl in *; [lia|].
    rewrite IH by lia. reflexivity.
Qed.

Lemma pull_None (k : nat) : forall it : list A,
  (length it < k)%nat -> pull k it = None.
Proof.
  induction k as [|k IH]; intros it Hk; simpl; [lia|].
  destruct it as [|x it]; simpl in *; [reflexivity|].
  rewrite IH by lia. reflexivity.
Qed.

(** The rounds of the shared-iterator [zip] cut the list into consecutive
    whole groups of [k] and stop at the first incomplete one. *)
Lemma zip_rounds_spec (k : nat) (Hk : (0 < k)%nat) (rounds : nat) :
  forall it : list A, (length it <= rounds)%nat ->
  concat (zip_rounds rounds k it) = take (length it / k * k) it
  /\ Forall (fun s => length s = k) (zip_rounds rounds k it)
  /\ length (zip_rounds rounds k it) = (length it / k)%nat.
Proof.
  induction rounds as [|rounds IH]; intros it Hlen.
  - destruct it; simpl in *; [|lia].
    rewrite Nat.Div0.div_0_l. repeat split. constructor.
  - simpl. destruct (le_lt_dec k (length it)) as [Hle|Hlt].
    + rewrite (pull_Some k it Hle).
      destruct (IH (drop k it)) as (Hc & Hf & Hl);
        [rewrite length_drop; lia|].
      rewrite length_drop in Hc, Hl.
      assert (length it / k = S ((length it - k) / k))%nat as Hdiv.
      { replace (length it) with ((length it - k) + 1 * k)%nat at 1 by lia.
        rewrite Nat.div_add by lia. lia. }
      rewrite Hdiv. simpl. rewrite Hc, take_take_drop. repeat split.
      * constructor; [|exact Hf]. rewrite length_take. lia.
      * now rewrite Hl.
    + rewrite (pull_None k it Hlt), Nat.div_small by exact Hlt.
      repeat split. constructor.
Qed.

Lemma zip_shared_iter_spec (k : nat) (Hk : (0 < k)%nat) (l : list A) :
  concat (zip_shared_iter k l) = take (length l / k * k) l
  /\ Forall (fun s => length s = k) (zip_shared_iter k l)
  /\ length (zip_shared_iter k l) = (length l / k)%nat.
Proof.
  destruct k as [|k]; [lia|]. unfold zip_shared_iter.
  now apply zip_rounds_spec.
Qed.

End ZipFacts.

Section IndexingFacts.

Import Indexing.

Variable response_encoder : list string -> list string -> list (list float).

(** The encoder's contract: one output vector per input sentence. *)
Hypothesis response_encoder_length : forall input context,
  length (response_encoder input context) = length input.

Lemma add_batch_zip (outputs : list (list float)) (b : list string) :
  forall (s : nat) (ix : SimpleNeighbors),
  (s + length b <= length outputs)%nat ->
  add_batch outputs (zip (seq s (length b)) b) ix =
  Some (MkIndex (dims ix) (metric ix)
                (corpus ix ++ zip b (drop s outputs)) (built ix)).
Proof.
  induction b as [|x b IH]; intros s ix Hs; simpl.
  - destruct ix; simpl. now rewrite app_nil_r.
  - simpl in Hs.
    destruct (lookup_lt_is_Some_2 outputs s) as [v Hv]; [lia|].
    rewrite Hv, IH by lia. simpl.
    rewrite (drop_S _ _ _ Hv), <- app_assoc. reflexivity.
Qed.

Lemma index_slice_spec (s : list (string * string)) (ix : SimpleNeighbors)
  (log : list call) :
  index_slice response_encoder s (ix, log) =
  Some (MkIndex (dims ix) (metric ix)
                (corpus ix ++ slice_entries response_encoder s) (built ix),
        log ++ [slice_call s]).
Proof.
  unfold index_slice, enumerate, slice_entries, slice_call.
  rewrite add_batch_zip by (rewrite response_encoder_length; lia).
  now rewrite drop_0.
Qed.

Lemma index_slices_spec (slices : list (list (string * string))) :
  forall (ix : SimpleNeighbors) (log : list call),
  index_slices response_encoder slices (ix, log) =
  Some (MkIndex (dims ix) (metric ix)
          (corpus ix ++ concat (map (slice_entries response_encoder) slices))
          (built ix),
        log ++ map slice_call slices).
Proof.
  induction slices as [|s slices IH]; intros ix log; cbn [index_slices].
  - destruct ix; simpl. now rewrite !app_nil_r.
  - rewrite index_slice_spec, IH. simpl. now rewrite <- !app_assoc.
Qed.

Lemma encoded_pairs_slices (slices : list (list (string * string))) :
  encoded_pairs (map slice_call slices) = concat slices.
Proof.
  unfold encoded_pairs. induction slices as [|s slices IH]; simpl.
  - reflexivity.
  - now rewrite IH, zip_fst_snd.
Qed.

Lemma fst_slice_entries (slices : list (list (string * string))) :
  map fst (concat (map (slice_entries response_encoder) slices))
  = map fst (concat slices).
Proof.
  induction slices as [|s slices IH]; simpl; [reflexivity|].
  rewrite !map_app, IH. f_equal. unfold slice_entries.
  apply fst_zip. rewrite response_encoder_length. lia.
Qed.

(** On an empty list the cell stops at [sentences[0]]. *)
Lemma indexing_cell_empty : indexing_cell response_encoder [] = None.
Proof. reflexivity. Qed.

(** C1, as the cell has it: on a non-empty list the batch loop hands the
    encoder exactly the first [n / 100 * 100] pairs, in whole batches of 100
    and in order, and inserts exactly their sentences; the trailing
    [n mod 100] pairs are in no batch and never inserted.  The one other
    encoder call is the initial one on the first pair alone, which sizes the
    index. *)
Theorem indexing_cell_whole_batches (sentences : list (string * string)) :
  sentences <> [] ->
  let k := (length sentences / batch_size * batch_size)%nat in
  let slices := zip_shared_iter batch_size sentences in
  concat slices = take k sentences
  /\ Forall (fun s => length s = batch_size) slices
  /\ length sentences = (k + length sentences mod batch_size)%nat
  /\ exists ix log r0 c0,
       sentences !! 0%nat = Some (r0, c0)
       /\ indexing_cell response_encoder sentences = Some (ix, log)
       /\ built ix = true
       /\ corpus ix = concat (map (slice_entries response_encoder) slices)
       /\ map fst (corpus ix) = map fst (take k sentences)
       /\ log = ([r0], [c0]) :: map slice_call slices
       /\ encoded_pairs (map slice_call slices) = take k sentences.
Proof.
  intros Hne k slices.
  destruct (zip_shared_iter_spec batch_size ltac:(unfold batch_size; lia)
              sentences) as (Hc & Hf & _).
  fold slices in Hc, Hf. fold k in Hc.
  split; [exact Hc|]. split; [exact Hf|]. split.
  { unfold k. pose proof (Nat.div_mod_eq (length sentences) batch_size). lia. }
  destruct (sentences !! 0%nat) as [[r0 c0]|] eqn:H0;
    [|destruct sentences; [congruence | discriminate]].
  destruct (response_encoder [r0] [c0]) as [|v0 vs] eqn:Ev.
  { pose proof (response_encoder_length [r0] [c0]) as Hl.
    rewrite Ev in Hl. discriminate. }
  exists (MkIndex (length v0) "angular"
            (concat (map (slice_entries response_encoder) slices)) true),
         (([r0], [c0]) :: map slice_call slices), r0, c0.
  split; [reflexivity|]. split.
  { unfold indexing_cell. rewrite H0, Ev. cbn [lookup list_lookup].
    fold slices. unfold new_index. rewrite index_slices_spec. reflexivity. }
  split; [reflexivity|]. split; [reflexivity|]. split.
  { cbn [corpus]. now rewrite fst_slice_entries, Hc. }
  split; [reflexivity|]. now rewrite encoded_pairs_slices.
Qed.

End IndexingFacts.

(** C1, as it is stated, fails on a list of one pair: that pair is the
    trailing partial batch, and the cell still hands it to the encoder, in
    the call that sizes the index. *)
Lemma indexing_cell_encodes_first_pair :
  ~ (forall (response_encoder : list string -> list string -> list (list float))
            (sentences : list (string * string))
            (ix : Indexing.SimpleNeighbors) (log : list Indexing.call),
       (forall input context,
          length (response_encoder input context) = length input) ->
       NoDup sentences ->
       Indexing.indexing_cell response_encoder sentences = Some (ix, log) ->
       forall i p,
         (length sentences / Indexing.batch_size * Indexing.batch_size <= i)%nat ->
         sentences !! i = Some p ->
         p ∉ Indexing.encoded_pairs log).
Proof.
  intros H.
  refine (H (fun input _ => map (fun _ => [1%float]) input) [("s", "c")]
            _ _ _ _ _ 0%nat ("s", "c") _ _ _).
  - intros input context. apply length_map.
  - apply NoDup_singleton.
  - reflexivity.
  - apply Nat.le_0_l.
  - reflexivity.
  - vm_compute. apply list_elem_of_here.
Qed.

Lemma indexing_cell_whole_batches_witness :
  let response_encoder :=
    fun (input context : list string) => map (fun _ : string => [1%float]) input in
  let sentences :=
    map (fun n => (String (ascii_of_nat n) "", "ctx")) (seq 0 101) in
  sentences <> []
  /\ exists ix log,
       Indexing.indexing_cell response_encoder sentences = Some (ix, log)
       /\ map fst (Indexing.corpus ix) = map fst (take 100 sentences).
Proof.
  intros response_encoder sentences. split; [discriminate|].
  destruct (indexing_cell_whole_batches response_encoder
              (fun input context => length_map _ input) sentences)
    as (_ & _ & _ & ix & log & r0 & c0 & _ & Hcell & _ & _ & Hfst & _).
  - discriminate.
  - exists ix, log. split; [exact Hcell | exact Hfst].
Defined.

(** ** Centre cropping *)

Section CropFacts.

Import Video.

(** A slice whose bounds lie inside the list is a [take] of a [drop]. *)
Lemma lslice_in_range {B : Type} (l : list B) (lo len : Z) :
  0 <= lo -> 0 <= len -> lo + len <= Z.of_nat (length l) ->
  lslice l lo (lo + len) = take (Z.to_nat len) (drop (Z.to_nat lo) l).
Proof.
  intros Hlo Hlen Hhi. unfold lslice, Py.bound.
  destruct (Z.ltb_spec lo 0); [lia|].
  destruct (Z.ltb_spec (lo + len) 0); [lia|].
  rewrite !Z.min_l by lia.
  replace (lo + len - lo) with len by lia. reflexivity.
Qed.

Lemma lslice_Forall {B : Type} (P : B -> Prop) (l : list B) (lo hi : Z) :
  Forall P l -> Forall P (lslice l lo hi).
Proof. intros H. unfold lslice. now apply Forall_take, Forall_drop. Qed.

Context {A : Type}.

Lemma shape2_rect (f : list (list A)) (y x : nat) :
  length f = y -> Forall (fun row => length row = x) f -> (0 < y)%nat ->
  shape2 f = (Z.of_nat y, Z.of_nat x).
Proof.
  intros Hy Hx Hpos. unfold shape2. destruct f as [|row f]; simpl in *; [lia|].
  inversion Hx; subst. reflexivity.
Qed.

(** The two starting offsets keep the square inside the frame. *)
Lemma center_offset_range (d m : Z) :
  0 <= m <= d -> 0 <= d / 2 - m / 2 /\ d / 2 - m / 2 + m <= d.
Proof. intros H. Z.div_mod_to_equations. lia. Qed.

(** C6: on a frame of [y] rows and [x] columns, both positive, the result
    is the square of side [min y x] whose rows start at
    [y / 2 - min y x / 2] and whose columns start at [x / 2 - min y x / 2];
    both offsets keep the square inside the frame, the result has
    [min y x] rows of [min y x] columns each, and its entry at row [r] and
    column [c] is the frame's entry at the offsets plus [r] and [c]. *)
Theorem crop_center_square_spec (f : list (list A)) (y x : nat) :
  length f = y -> Forall (fun row => length row = x) f ->
  (0 < y)%nat -> (0 < x)%nat ->
  let m := Z.min (Z.of_nat y) (Z.of_nat x) in
  let start_y := Z.of_nat y / 2 - m / 2 in
  let start_x := Z.of_nat x / 2 - m / 2 in
  let out := crop_center_square f in
  m = Z.of_nat (Nat.min y x)
  /\ (0 <= start_y /\ start_y + m <= Z.of_nat y)
  /\ (0 <= start_x /\ start_x + m <= Z.of_nat x)
  /\ out = map (fun row => take (Z.to_nat m) (drop (Z.to_nat start_x) row))
               (take (Z.to_nat m) (drop (Z.to_nat start_y) f))
  /\ length out = Nat.min y x
  /\ Forall (fun row => length row = Nat.min y x) out
  /\ shape2 out = (m, m)
  /\ (forall r c, (r < Nat.min y x)%nat -> (c < Nat.min y x)%nat ->
        out !! r ≫= (fun row => row !! c)
        = f !! (Z.to_nat start_y + r)%nat
            ≫= (fun row => row !! (Z.to_nat start_x + c)%nat)).
Proof.
  intros Hy Hx Hypos Hxpos. cbv zeta.
  unfold crop_center_square. rewrite (shape2_rect f y x Hy Hx Hypos).
  cbv beta iota zeta.
  set (m := Z.min (Z.of_nat y) (Z.of_nat x)).
  set (start_y := Z.of_nat y / 2 - m / 2).
  set (start_x := Z.of_nat x / 2 - m / 2).
  assert (m = Z.of_nat (Nat.min y x)) as Hm by (unfold m; lia).
  destruct (center_offset_range (Z.of_nat y) m) as [Hy0 Hy1]; [lia|].
  destruct (center_offset_range (Z.of_nat x) m) as [Hx0 Hx1]; [lia|].
  fold start_y in Hy0, Hy1. fold start_x in Hx0, Hx1.
  assert (map (fun row => lslice row start_x (start_x + m))
              (lslice f start_y (start_y + m))
          = map (fun row => take (Z.to_nat m) (drop (Z.to_nat start_x) row))
                (take (Z.to_nat m) (drop (Z.to_nat start_y) f))) as Hout.
  { rewrite lslice_in_range by lia.
    apply map_ext_Forall.
    apply Forall_take, Forall_drop.
    eapply Forall_impl; [exact Hx|]. intros row Hrow. cbn beta in *.
    apply lslice_in_range; lia. }
  rewrite Hout.
  set (out := map (fun row => take (Z.to_nat m) (drop (Z.to_nat start_x) row))
                  (take (Z.to_nat m) (drop (Z.to_nat start_y) f))).
  assert (Forall (fun row => length row = Nat.min y x) out) as Hrows.
  { unfold out. apply Forall_fmap, Forall_take, Forall_drop.
    eapply Forall_impl; [exact Hx|]. intros row Hrow.
    unfold compose. cbn beta in *.
    rewrite length_take, length_drop. lia. }
  assert (length out = Nat.min y x) as Hlen.
  { unfold out. rewrite length_map, length_take, length_drop. lia. }
  repeat split; try assumption.
  - rewrite (shape2_rect out (Nat.min y x) (Nat.min y x)); try assumption.
    + now rewrite <- Hm.
    + lia.
  - intros r c Hr Hc. unfold out. rewrite list_lookup_fmap.
    rewrite lookup_take_lt by lia. rewrite lookup_drop.
    destruct (f !! (Z.to_nat start_y + r)%nat) as [row|]; [|reflexivity].
    cbn. rewrite lookup_take_lt by lia. now rewrite lookup_drop.
Qed.

End CropFacts.

Lemma crop_center_square_spec_witness :
  let f := [[1; 2; 3; 4]; [5; 6; 7; 8]] in
  (0 < 2)%nat /\ (0 < 4)%nat /\
  Video.crop_center_square f = [[2; 3]; [6; 7]].
Proof.
  intros f. split; [lia|]. split; [lia|].
  destruct (crop_center_square_spec f 2 4) as (_ & _ & _ & Hout & _).
  - reflexivity.
  - repeat constructor.
  - lia.
  - lia.
  - exact Hout.
Defined.

(** ** The download cache *)

Section FetchFacts.

Import Ucf.

Variable _CACHE_DIR : string.
Variable urljoin : string -> string -> string.
Variable urlopen_read : string -> option (list Byte.byte).
Variable is_dir : string -> bool.
Variable open_wb : string -> bool.

Abbreviation fetch :=
  (fetch_ucf_video _CACHE_DIR urljoin urlopen_read is_dir open_wb).
Abbreviation exists_ := (path_exists is_dir).

Lemma snoc_neq {B : Type} (l : list B) (x : B) : l ++ [x] <> l.
Proof.
  intros H. apply (f_equal length) in H. rewrite length_app in H.
  simpl in H. lia.
Qed.

(** A file at the path makes it exist. *)
Lemma path_exists_file (p : string) (w : world) :
  is_Some (files w !! p) -> exists_ p w = true.
Proof.
  intros H. unfold path_exists.
  now rewrite (bool_decide_eq_true_2 _ H).
Qed.

(** A cache hit: nothing is requested, printed or written. *)
Lemma fetch_hit (video : string) (w : world) :
  exists_ (path_join _CACHE_DIR video) w = true ->
  fetch video w = (Some (path_join _CACHE_DIR video), w).
Proof. intros H. unfold fetch_ucf_video. now rewrite H. Qed.

(** A cache miss: the line is printed and the URL requested; the body, if
    any, is written when the file can be opened. *)
Lemma fetch_miss (video : string) (w : world) :
  exists_ (path_join _CACHE_DIR video) w = false ->
  let cache_path := path_join _CACHE_DIR video in
  let urlpath := urljoin UCF_ROOT video in
  let w1 :=
    request urlpath
      (print ("Fetching " +:+ urlpath +:+ " => " +:+ cache_path) w) in
  fetch video w =
  match urlopen_read urlpath with
  | Some contents =>
      if open_wb cache_path
      then (Some cache_path, write_file cache_path contents w1)
      else (None, w1)
  | None => (None, w1)
  end.
Proof. intros H. unfold fetch_ucf_video. now rewrite H. Qed.

(** C9: a download is requested exactly when the cache path does not
    exist; on a hit the world (the cached file included) is unchanged and
    the cache path is returned; on a miss exactly the video's URL is
    requested, and once its body has been read it becomes the cached file
    and the path is returned when the file can be opened, while nothing is
    returned and no file is written when it cannot; whatever the world, a
    returned path is the cache path of the name. *)
Theorem fetch_ucf_video_cache (video : string) (w : world) :
  let cache_path := path_join _CACHE_DIR video in
  let urlpath := urljoin UCF_ROOT video in
  (requests (fetch video w).2 <> requests w <-> exists_ cache_path w = false)
  /\ (exists_ cache_path w = true ->
        fetch video w = (Some cache_path, w))
  /\ (exists_ cache_path w = false ->
        requests (fetch video w).2 = requests w ++ [urlpath]
        /\ forall contents, urlopen_read urlpath = Some contents ->
             (open_wb cache_path = true ->
                (fetch video w).1 = Some cache_path
                /\ files (fetch video w).2
                   = <[cache_path := contents]> (files w))
             /\ (open_wb cache_path = false ->
                   (fetch video w).1 = None
                   /\ files (fetch video w).2 = files w))
  /\ (forall w1 w2 p1 p2,
        (fetch video w1).1 = Some p1 -> (fetch video w2).1 = Some p2 ->
        p1 = cache_path /\ p2 = cache_path).
Proof.
  intros cache_path urlpath.
  assert (forall w0 p, (fetch video w0).1 = Some p -> p = cache_path) as Hret.
  { intros w0 p. destruct (exists_ cache_path w0) eqn:E.
    - rewrite fetch_hit by exact E. now intros [= <-].
    - rewrite fetch_miss by exact E.
      destruct (urlopen_read (urljoin UCF_ROOT video)); [|discriminate].
      destruct (open_wb (path_join _CACHE_DIR video)); [|discriminate].
      now intros [= <-]. }
  assert (exists_ cache_path w = false ->
          requests (fetch video w).2 = requests w ++ [urlpath]) as Hreq.
  { intros E. rewrite fetch_miss by exact E.
    destruct (urlopen_read (urljoin UCF_ROOT video)); [|reflexivity].
    destruct (open_wb (path_join _CACHE_DIR video)); reflexivity. }
  split; [|split; [|split]].
  - split.
    + intros Hne. destruct (exists_ cache_path w) eqn:E; [|reflexivity].
      rewrite fetch_hit in Hne by exact E. now destruct Hne.
    + intros E. rewrite (Hreq E). apply snoc_neq.
  - apply fetch_hit.
  - intros E. split; [exact (Hreq E)|]. intros contents Hc.
    rewrite fetch_miss by exact E. fold urlpath. rewrite Hc.
    fold cache_path. split; intros ->; split; reflexivity.
  - intros w1 w2 p1 p2 H1 H2. split; eapply Hret; eassumption.
Qed.

End FetchFacts.

(** ** Loading and normalising frames *)

Section NormalizeFacts.

Import Video.

(** The 256 values of [uint8], checked one by one on the floats. *)
Lemma normalize_uint8_checked :
  forallb (fun n =>
             PrimFloat.leb 0%float (normalize (Z.of_nat n))
             && PrimFloat.leb (normalize (Z.of_nat n)) 1%float)
          (seq 0 256) = true.
Proof. vm_compute. reflexivity. Qed.

Lemma normalize_unit_interval (v : Z) :
  is_uint8 v -> in_unit_interval (normalize v).
Proof.
  intros [Hlo Hhi].
  pose proof normalize_uint8_checked as Hall.
  rewrite forallb_forall in Hall.
  specialize (Hall (Z.to_nat v)).
  rewrite Z2Nat.id in Hall by exact Hlo.
  apply andb_true_iff. apply Hall.
  apply in_seq. lia.
Qed.

Lemma frame_all_fmap {A B : Type} (P : A -> Prop) (Q : B -> Prop)
  (g : A -> B) (f : frame A) :
  (forall v, P v -> Q (g v)) ->
  frame_all P f -> frame_all Q (map (map (map_pixel g)) f).
Proof.
  intros Hg Hf. unfold frame_all in *.
  apply Forall_fmap. eapply Forall_impl; [exact Hf|].
  intros row Hrow. unfold compose. apply Forall_fmap.
  eapply Forall_impl; [exact Hrow|].
  intros p (H0 & H1 & H2). repeat split; cbn; now apply Hg.
Qed.

Lemma crop_frame_all {A : Type} (P : A -> Prop) (f : frame A) :
  frame_all P f -> frame_all P (crop_center_square f).
Proof.
  intros Hf. unfold frame_all, crop_center_square in *.
  destruct (shape2 f) as [y x].
  apply Forall_fmap. eapply Forall_impl; [apply lslice_Forall, Hf|].
  intros row Hrow. unfold compose. now apply lslice_Forall.
Qed.

Lemma reorder_frame_all {A : Type} (P : A -> Prop) (f : frame A) :
  frame_all P f -> frame_all P (reorder_channels f).
Proof.
  intros Hf. unfold frame_all, reorder_channels in *.
  apply Forall_fmap. eapply Forall_impl; [exact Hf|].
  intros row Hrow. unfold compose. apply Forall_fmap.
  eapply Forall_impl; [exact Hrow|].
  intros p (H0 & H1 & H2). repeat split; assumption.
Qed.

End NormalizeFacts.

Section LoadFacts.

Import Video.

Variable cv2_resize : frame Z -> Z * Z -> frame Z.

(** [cv2.resize] keeps the dtype: 8-bit frames come out as 8-bit frames. *)
Hypothesis cv2_resize_uint8 : forall f size,
  frame_all is_uint8 f -> frame_all is_uint8 (cv2_resize f size).

Lemma read_frames_uint8 (max_frames : Z) (resize : Z * Z)
  (cap : list (frame Z)) :
  forall frames,
  Forall (frame_all is_uint8) cap -> Forall (frame_all is_uint8) frames ->
  Forall (frame_all is_uint8) (read_frames cv2_resize cap frames max_frames resize).
Proof.
  induction cap as [|f cap IH]; intros frames Hcap Hframes; simpl.
  - exact Hframes.
  - inversion Hcap as [|? ? Hf Hcap']; subst.
    assert (Forall (frame_all is_uint8)
              (frames ++ [reorder_channels
                            (cv2_resize (crop_center_square f) resize)])) as H.
    { apply Forall_app. split; [exact Hframes|].
      constructor; [|constructor].
      now apply reorder_frame_all, cv2_resize_uint8, crop_frame_all. }
    destruct (_ =? max_frames); [exact H | now apply IH].
Qed.

(** C7: when every decoded frame holds 8-bit values, the frames collected by
    the loop hold 8-bit values, the returned array holds each of them
    divided by 255 in floating point, and every returned value lies in the
    closed interval from 0 to 1. *)
Theorem load_video_unit_interval (cap : list (frame Z)) (max_frames : Z)
  (resize : Z * Z) :
  Forall (frame_all is_uint8) cap ->
  let frames := read_frames cv2_resize cap [] max_frames resize in
  Forall (frame_all is_uint8) frames
  /\ load_video cv2_resize cap max_frames resize
     = map (map (map (map_pixel (fun v =>
         PrimFloat.div (PrimFloat.of_uint63 (Uint63.of_Z v)) 255%float))))
         frames
  /\ Forall (frame_all in_unit_interval)
            (load_video cv2_resize cap max_frames resize).
Proof.
  intros Hcap frames.
  assert (Forall (frame_all is_uint8) frames) as Hframes
    by (apply read_frames_uint8; [exact Hcap | constructor]).
  split; [exact Hframes|]. split; [reflexivity|].
  unfold load_video. fold frames.
  apply Forall_fmap. eapply Forall_impl; [exact Hframes|].
  intros f Hf. unfold compose.
  exact (frame_all_fmap is_uint8 in_unit_interval normalize f
           normalize_unit_interval Hf).
Qed.

End LoadFacts.

Lemma load_video_unit_interval_witness :
  let cap := [[[Video.Pixel 0 128 255; Video.Pixel 255 7 0]]] in
  Forall (Video.frame_all Video.is_uint8) cap
  /\ Forall (Video.frame_all Video.in_unit_interval)
            (Video.load_video (fun f _ => f) cap 0 (224, 224)).
Proof.
  intros cap.
  assert (Forall (Video.frame_all Video.is_uint8) cap) as Hcap.
  { unfold cap, Video.frame_all, Video.pixel_all, Video.is_uint8.
    repeat constructor; simpl; lia. }
  split; [exact Hcap|].
  apply (load_video_unit_interval (fun f _ => f) (fun f _ H => H)
           cap 0 (224, 224) Hcap).
Defined.

(** ** The top-5 report *)

Section PredictFacts.

Import Report.

Variable video : Type.
Variable i3d : list video -> list (list float32).
Variable softmax : list float32 -> list float32.
Variable argsort : list float32 -> list nat.
Variable labels : list string.

(** Position [a] of the reported indices is position [n - 1 - a] of the
    ascending order. *)
Lemma top_lookup (order : list nat) (a i : nat) :
  take 5 (reverse order) !! a = Some i <->
  order !! (length order - S a)%nat = Some i
  /\ (a < length order)%nat /\ (a < 5)%nat.
Proof.
  rewrite lookup_take_Some, reverse_lookup_Some. tauto.
Qed.

(** When every class of the loop has its line, the lines are printed one
    after the other and the loop ends normally. *)
Lemma print_lines_returned (probabilities : list float32)
  (classes : list nat) :
  forall rows stdout,
  mapM (report_line labels probabilities) classes = Some rows ->
  print_lines labels probabilities classes stdout = (stdout ++ rows, Returned).
Proof.
  induction classes as [|i classes IH]; intros rows stdout Hrows.
  - injection Hrows as <-. cbn. now rewrite app_nil_r.
  - apply mapM_Some in Hrows. inversion Hrows as [|? row ? rows' Hi Hrest];
      subst.
    cbn [print_lines]. rewrite Hi.
    rewrite (IH rows' (stdout ++ [row])) by now apply mapM_Some.
    now rewrite <- app_assoc.
Qed.

(** C8: when the classifier returns the logits, [argsort] returns the
    indices of the probabilities in ascending order, and there are at least
    five classes, each with its label, [predict] prints the heading and
    exactly five lines and returns; the lines carry the labels and the
    single-precision products by 100 of the probabilities of five distinct
    classes, in non-increasing order of probability, and no class left out
    has a larger probability than a reported one. *)
Theorem predict_top5 (sample_video : video) (logits : list float32) :
  i3d [sample_video] !! 0%nat = Some logits ->
  let probabilities := softmax logits in
  let order := argsort probabilities in
  let n := length probabilities in
  order ≡ₚ seq 0 n ->
  (forall a b ia ib, (a <= b)%nat ->
     order !! a = Some ia -> order !! b = Some ib ->
     prob_le probabilities ia ib = true) ->
  (5 <= n)%nat -> (n <= length labels)%nat ->
  exists top rows,
    top = take 5 (reverse order)
    /\ predict video i3d softmax argsort labels sample_video
       = (Heading :: rows, Returned)
    /\ length rows = 5%nat
    /\ NoDup top
    /\ Forall2 (fun i row =>
         exists l p, labels !! i = Some l /\ probabilities !! i = Some p
                     /\ row = Action l (mul32 p hundred)) top rows
    /\ (forall a b ia ib, (a <= b)%nat ->
          top !! a = Some ia -> top !! b = Some ib ->
          prob_le probabilities ib ia = true)
    /\ (forall i j, i ∈ top -> (j < n)%nat -> j ∉ top ->
          prob_le probabilities j i = true).
Proof.
  intros Hlogits probabilities order n Hperm Hsorted Hn Hlabels.
  assert (length order = n) as Hlen
    by (rewrite Hperm; apply length_seq).
  assert (forall i, i ∈ order <-> (i < n)%nat) as Hmem.
  { intros i. rewrite Hperm, elem_of_seq. lia. }
  assert (NoDup order) as Hnd by (rewrite Hperm; apply NoDup_seq).
  set (top := take 5 (reverse order)).
  assert (forall i, i ∈ top -> (i < n)%nat) as Htop_lt.
  { intros i Hi. apply Hmem. apply elem_of_take in Hi as (a & Ha & _).
    apply elem_of_reverse, list_elem_of_lookup. eauto. }
  assert (is_Some (mapM (report_line labels probabilities) top)) as [rows Hrows].
  { apply mapM_is_Some, Forall_forall. intros i Hi. apply Htop_lt in Hi.
    unfold compose, report_line.
    destruct (lookup_lt_is_Some_2 labels i) as [l ->]; [lia|].
    destruct (lookup_lt_is_Some_2 probabilities i) as [p ->]; [exact Hi|].
    eauto. }
  exists top, rows. split; [reflexivity|]. split.
  { unfold predict. rewrite Hlogits. fold probabilities. fold order.
    fold top. now rewrite (print_lines_returned _ _ rows [Heading] Hrows). }
  split.
  { apply length_mapM in Hrows. rewrite <- Hrows. unfold top.
    rewrite length_take, length_reverse. lia. }
  split.
  { unfold top. eapply sublist_NoDup; [|apply sublist_take].
    now rewrite reverse_Permutation. }
  split.
  { apply mapM_Some in Hrows. eapply Forall2_impl; [exact Hrows|].
    intros i row. unfold report_line.
    destruct (labels !! i) as [l|]; [|discriminate].
    destruct (probabilities !! i) as [p|]; [|discriminate].
    intros [= <-]. eauto. }
  split.
  { intros a b ia ib Hab Ha Hb.
    apply top_lookup in Ha as (Ha & Ha1 & Ha2).
    apply top_lookup in Hb as (Hb & Hb1 & Hb2).
    apply (Hsorted (length order - S b)%nat (length order - S a)%nat);
      [lia | exact Hb | exact Ha]. }
  intros i j Hi Hj Hnot.
  apply list_elem_of_lookup in Hi as [a Ha].
  apply top_lookup in Ha as (Ha & Ha1 & Ha2).
  apply Hmem, list_elem_of_lookup in Hj as [c Hc].
  pose proof (lookup_lt_Some _ _ _ Hc) as Hc_lt.
  destruct (le_lt_dec (length order - 5) c) as [Hge|Hlt].
  - destruct Hnot. apply list_elem_of_lookup.
    exists (length order - S c)%nat. apply top_lookup.
    replace (length order - S (length order - S c))%nat with c by lia.
    split; [exact Hc|]. lia.
  - apply (Hsorted c (length order - S a)%nat); [lia | exact Hc | exact Ha].
Qed.

End PredictFacts.

Lemma predict_top5_witness :
  let sixteenth := fun k : Z => binary_normalize 24 128 k (-4) false in
  let i3d := fun _ : list unit => [map sixteenth [2; 5; 1; 3; 4; 1]%Z] in
  let softmax := fun logits : list Report.float32 => logits in
  let argsort := fun _ : list Report.float32 => [2; 5; 0; 3; 4; 1]%nat in
  let labels := ["abseiling"; "archery"; "bowling"; "cartwheeling";
                 "dancing"; "eating"] in
  (5 <= length (softmax (map sixteenth [2; 5; 1; 3; 4; 1]%Z)))%nat
  /\ exists rows,
       Report.predict unit i3d softmax argsort labels tt
       = (Report.Heading :: rows, Report.Returned)
       /\ length rows = 5%nat.
Proof.
  intros sixteenth i3d softmax argsort labels. split; [simpl; lia|].
  destruct (predict_top5 unit i3d softmax argsort labels tt
              (map sixteenth [2; 5; 1; 3; 4; 1]%Z))
    as (top & rows & _ & Hpredict & Hrows & _).
  - reflexivity.
  - apply (bool_decide_unpack _). vm_compute. exact I.
  - intros a b ia ib Hab Ha Hb.
    do 6 (destruct a as [|a];
          [do 6 (destruct b as [|b];
                 [first [lia
                        | injection Ha as <-; injection Hb as <-;
                          vm_compute; reflexivity]|]);
           discriminate Hb|]).
    discriminate Ha.
  - simpl. lia.
  - simpl. lia.
  - exists rows. split; [exact Hpredict | exact Hrows].
Defined.

(** * Further properties of the notebook's code *)

(** ** Highlighting: which occurrences are wrapped *)

Section WrappedFacts.

Import Highlight.

(** [String.index 0] answers with the leftmost occurrence. *)
Lemma index_Some_leftmost (h s : string) (n : nat) :
  String.index 0 h s = Some n ->
  forall pre post, s = pre +:+ h +:+ post -> (n <= String.length pre)%nat.
Proof.
  revert n. induction s as [|b s IH]; intros n.
  - rewrite index_empty. destruct h; [|discriminate].
    intros [= <-] pre post _. lia.
  - rewrite index_cons.
    destruct (String.prefix h (String b s)) eqn:Hp.
    + intros [= <-] pre post _. lia.
    + destruct (String.index 0 h s) as [m|]; [|discriminate].
      intros [= <-] pre post Heq. destruct pre as [|c pre].
      * rewrite append_nil in Heq.
        assert (String.prefix h (String b s) = true) as Hp'
          by (apply prefix_true_app; eauto).
        congruence.
      * rewrite append_cons in Heq. injection Heq as _ Heq.
        simpl. apply le_n_S. exact (IH m eq_refl pre post Heq).
Qed.

Lemma find_leftmost (text h : string) :
  (Py.find text h = -1 /\ forall pre post, text <> pre +:+ h +:+ post)
  \/ exists pre post,
       text = pre +:+ h +:+ post
       /\ Py.find text h = Z.of_nat (String.length pre)
       /\ forall pre' post', text = pre' +:+ h +:+ post' ->
            (String.length pre <= String.length pre')%nat.
Proof.
  unfold Py.find. destruct (String.index 0 h text) as [n|] eqn:Hi.
  - right. destruct (index_Some_occurrence _ _ _ Hi) as (pre & post & Ht & Hn).
    exists pre, post. subst n. repeat split; [exact Ht|].
    intros pre' post' Ht'. exact (index_Some_leftmost _ _ _ Hi pre' post' Ht').
  - left. split; [reflexivity|]. now apply index_None_no_occurrence.
Qed.

(** Two splittings of one text with the part before of the same length are
    the same splitting. *)
Lemma append_inj_length (a b a' b' : string) :
  a +:+ b = a' +:+ b' -> String.length a = String.length a' ->
  a = a' /\ b = b'.
Proof.
  revert a'. induction a as [|x a IH]; intros [|x' a'] Heq Hlen;
    try discriminate.
  - split; [reflexivity | exact Heq].
  - rewrite !append_cons in Heq. injection Heq as -> Heq.
    simpl in Hlen. destruct (IH a' Heq) as [-> ->]; [lia|]. split; reflexivity.
Qed.

(** The relation determines the wrapped text. *)
Lemma wrapped_functional (h : string) (text b1 b2 : string) :
  wrapped h text b1 -> wrapped h text b2 -> b1 = b2.
Proof.
  intros H1. revert b2.
  induction H1 as [text Hno|pre post body Hleft H1 IH]; intros b2 H2.
  - inversion H2; subst; [reflexivity|].
    now destruct (Hno _ _ eq_refl).
  - remember (pre +:+ h +:+ post) as text eqn:Et.
    destruct H2 as [text Hno|pre' post' body' Hleft' H2].
    + destruct (Hno pre post Et).
    + pose proof (Hleft pre' post' eq_refl) as Hle.
      pose proof (Hleft' pre post Et) as Hle'.
      destruct (append_inj_length pre' (h +:+ post') pre (h +:+ post) Et)
        as [-> Hrest]; [lia|].
      apply String.app_inj in Hrest. subst post'.
      now rewrite (IH body' H2).
Qed.

(** The loop computes the wrapped text after the output it is entered
    with. *)
Lemma while_true_wrapped (h : string) (Hne : h <> "") (n : nat) :
  forall text output, (String.length text <= n)%nat ->
  exists body, wrapped h text body /\
    forall fuel, (String.length text < fuel)%nat ->
      while_true fuel h text output (Py.find text h) = Some (output +:+ body).
Proof.
  assert (0 < String.length h)%nat as Hh
    by (destruct h; [congruence | simpl; lia]).
  induction n as [|n IH]; intros text output Hlen;
    destruct (find_leftmost text h)
      as [[Hf Hno]|(pre & post & -> & Hf & Hleft)].
  - exists text. split; [now constructor|]. intros [|fuel] Hfuel; [lia|].
    now rewrite while_true_S, Hf, loop_body_break.
  - rewrite !length_append in Hlen. lia.
  - exists text. split; [now constructor|]. intros [|fuel] Hfuel; [lia|].
    now rewrite while_true_S, Hf, loop_body_break.
  - rewrite !length_append in Hlen.
    destruct (IH post ((output +:+ pre) +:+ ("<b>" +:+ h +:+ "<b>")))
      as (body & Hbody & Hrun); [lia|].
    exists (pre +:+ "<b>" +:+ h +:+ "<b>" +:+ body). split.
    + now constructor.
    + intros [|fuel] Hfuel; [lia|]. rewrite !length_append in Hfuel.
      rewrite while_true_S, Hf, loop_body_occurrence, Hrun by lia.
      now rewrite !append_assoc.
Qed.

(** X1: for a non-empty highlight the result is the list item around the
    wrapped text, in which exactly the occurrences found by a scan from the
    left are wrapped: each is the leftmost one in the text that follows the
    previous one, so occurrences that overlap a wrapped one are left alone,
    and the text outside the wrapped occurrences is copied unchanged. *)
Theorem output_with_highlight_wrapped (text highlight : string) :
  highlight <> "" ->
  exists body,
    wrapped highlight text body
    /\ (forall body', wrapped highlight text body' -> body' = body)
    /\ forall fuel, (String.length text < fuel)%nat ->
         output_with_highlight fuel text highlight
         = Some ("<li> " +:+ body +:+ "</li>" +:+ Py.nl).
Proof.
  intros Hne.
  destruct (while_true_wrapped highlight Hne (String.length text) text
              "<li> " (le_n _)) as (body & Hbody & Hrun).
  exists body. split; [exact Hbody|]. split.
  - intros body' Hbody'. exact (wrapped_functional _ _ _ _ Hbody' Hbody).
  - intros fuel Hfuel. unfold output_with_highlight.
    rewrite (Hrun fuel Hfuel). now rewrite append_assoc.
Qed.

Lemma output_with_highlight_wrapped_witness :
  "aa" <> "" /\
  exists body,
    wrapped "aa" "aaa" body
    /\ forall fuel, (3 < fuel)%nat ->
         output_with_highlight fuel "aaa" "aa"
         = Some ("<li> " +:+ body +:+ "</li>" +:+ Py.nl).
Proof.
  split; [discriminate|].
  destruct (output_with_highlight_wrapped "aaa" "aa") as (body & Hw & _ & Hrun);
    [discriminate|].
  exists body. split; [exact Hw | exact Hrun].
Defined.

End WrappedFacts.

(** ** The retrieval display *)

Section DisplayFacts.

Import Highlight Retrieval.

Variable question_encoder : list string -> list (list float).
Variable index_nearest : list float -> nat -> list string.

Lemma add_plain_foldr (search_results : list string) :
  forall result_md,
  add_plain search_results result_md
  = result_md
    +:+ foldr (fun s items => "<li>" +:+ s +:+ "</li>" +:+ Py.nl +:+ items)
          "" search_results.
Proof.
  induction search_results as [|s l IH]; intros md; simpl.
  - now rewrite append_empty_r.
  - rewrite IH. now rewrite !append_assoc.
Qed.

Lemma output_with_highlight_total (text h : string) :
  h <> "" ->
  exists item, forall fuel, (String.length text < fuel)%nat ->
    output_with_highlight fuel text h = Some item.
Proof.
  intros Hne.
  destruct (while_true_terminates h Hne (String.length text) text "<li> "
              (le_n _)) as [out Hout].
  exists (out +:+ "</li>" +:+ Py.nl). intros fuel Hfuel.
  unfold output_with_highlight. now rewrite (Hout fuel Hfuel).
Qed.

Lemma add_highlighted_total (a : string) (Hne : a <> "")
  (search_results : list string) :
  forall result_md,
  exists out, forall fuel,
    Forall (fun s => (String.length s < fuel)%nat) search_results ->
    add_highlighted fuel a search_results result_md = Some out.
Proof.
  induction search_results as [|s l IH]; intros md.
  - exists md. reflexivity.
  - destruct (output_with_highlight_total s a Hne) as [item Hitem].
    destruct (IH (md +:+ item)) as [out Hout].
    exists out. intros fuel Hfuel. inversion Hfuel; subst.
    cbn [add_highlighted]. rewrite Hitem by assumption. now apply Hout.
Qed.

Lemma add_highlighted_absent (a : string) (fuel : nat) (Hfuel : (0 < fuel)%nat)
  (search_results : list string) :
  Forall (fun s => forall pre post, s <> pre +:+ a +:+ post) search_results ->
  forall result_md,
  add_highlighted fuel a search_results result_md
  = Some (result_md
          +:+ foldr (fun s items =>
                       "<li> " +:+ s +:+ "</li>" +:+ Py.nl +:+ items)
                "" search_results).
Proof.
  induction 1 as [|s l Hs Hl IH]; intros md; cbn [add_highlighted foldr].
  - now rewrite append_empty_r.
  - destruct fuel as [|fuel']; [lia|]. unfold output_with_highlight.
    rewrite (find_no_occurrence _ _ Hs), while_true_S, loop_body_break.
    rewrite IH. now rewrite !append_assoc.
Qed.

(** X2: whatever the answer text, the display ends and produces its HTML
    once the encoder has returned an embedding: an absent or empty answer
    never reaches the highlighting loop, and a non-empty one ends it on
    every retrieved sentence. *)
Theorem display_nearest_neighbors_total (query_text : string)
  (answer_text : option string) (query_embedding : list float) :
  question_encoder [query_text] !! 0%nat = Some query_embedding ->
  exists result_md, forall fuel,
    Forall (fun s => (String.length s < fuel)%nat)
           (index_nearest query_embedding num_results) ->
    display_nearest_neighbors question_encoder index_nearest fuel
      query_text answer_text = Some result_md.
Proof.
  intros He. unfold display_nearest_neighbors. rewrite He.
  destruct (truthy answer_text) eqn:Ht.
  - destruct answer_text as [[|c a]|]; try discriminate.
    destruct (add_highlighted_total (String c a) ltac:(discriminate)
                (index_nearest query_embedding num_results)
                (question_answer_md query_text (String c a) +:+ retrieved_md))
      as [out Hout].
    exists (out +:+ "</ol>"). intros fuel Hfuel. cbn [from_option id].
    now rewrite (Hout fuel Hfuel).
  - eexists. intros fuel _. reflexivity.
Qed.

(** X3: with no answer text, or with the empty one, no highlighting is
    attempted: after the question and the heading the retrieved sentences
    are listed verbatim, in order, each between "<li>" and its closing tag,
    whatever the fuel. *)
Theorem display_nearest_neighbors_plain (fuel : nat) (query_text : string)
  (answer_text : option string) (query_embedding : list float) :
  question_encoder [query_text] !! 0%nat = Some query_embedding ->
  answer_text = None \/ answer_text = Some "" ->
  display_nearest_neighbors question_encoder index_nearest fuel
    query_text answer_text
  = Some (question_md query_text +:+ retrieved_md
          +:+ foldr (fun s items =>
                       "<li>" +:+ s +:+ "</li>" +:+ Py.nl +:+ items)
                "" (index_nearest query_embedding num_results)
          +:+ "</ol>").
Proof.
  intros He Ha. unfold display_nearest_neighbors. rewrite He.
  assert (truthy answer_text = false) as -> by (destruct Ha; subst; reflexivity).
  rewrite add_plain_foldr. now rewrite !append_assoc.
Qed.

(** X4: when the non-empty answer occurs in none of the retrieved
    sentences, the display shows the question, the answer and the heading,
    and then every sentence unchanged between "<li> " and its closing tag,
    with no emphasis inside the list. *)
Theorem display_nearest_neighbors_absent (fuel : nat) (query_text a : string)
  (query_embedding : list float) :
  question_encoder [query_text] !! 0%nat = Some query_embedding ->
  a <> "" -> (0 < fuel)%nat ->
  Forall (fun s => forall pre post, s <> pre +:+ a +:+ post)
         (index_nearest query_embedding num_results) ->
  display_nearest_neighbors question_encoder index_nearest fuel
    query_text (Some a)
  = Some (question_answer_md query_text a +:+ retrieved_md
          +:+ foldr (fun s items =>
                       "<li> " +:+ s +:+ "</li>" +:+ Py.nl +:+ items)
                "" (index_nearest query_embedding num_results)
          +:+ "</ol>").
Proof.
  intros He Hne Hfuel Habs. unfold display_nearest_neighbors. rewrite He.
  assert (truthy (Some a) = true) as -> by (destruct a; [congruence | reflexivity]).
  cbn [from_option id]. rewrite (add_highlighted_absent a fuel Hfuel _ Habs).
  now rewrite !append_assoc.
Qed.

End DisplayFacts.

Lemma display_nearest_neighbors_total_witness :
  let encoder := fun _ : list string => [[1%float]] in
  let nearest := fun (_ : list float) (_ : nat) => ["a cat"; "dog"] in
  encoder ["q?"] !! 0%nat = Some [1%float]
  /\ exists result_md, forall fuel,
       Forall (fun s => (String.length s < fuel)%nat) ["a cat"; "dog"] ->
       Retrieval.display_nearest_neighbors encoder nearest fuel
         "q?" (Some "a") = Some result_md.
Proof.
  intros encoder nearest. split; [reflexivity|].
  apply (display_nearest_neighbors_total encoder nearest
           "q?" (Some "a") [1%float]).
  reflexivity.
Defined.

Lemma display_nearest_neighbors_plain_witness :
  let encoder := fun _ : list string => [[1%float]] in
  let nearest := fun (_ : list float) (_ : nat) => ["a cat"; "dog"] in
  encoder ["q?"] !! 0%nat = Some [1%float]
  /\ Retrieval.display_nearest_neighbors encoder nearest 0 "q?" (Some "")
     = Some (Retrieval.question_md "q?" +:+ Retrieval.retrieved_md
             +:+ "<li>a cat</li>" +:+ Py.nl +:+ "<li>dog</li>" +:+ Py.nl
             +:+ "</ol>").
Proof.
  intros encoder nearest. split; [reflexivity|].
  rewrite (display_nearest_neighbors_plain encoder nearest
             0 "q?" (Some "") [1%float]); [reflexivity | reflexivity | now right].
Defined.

Lemma display_nearest_neighbors_absent_witness :
  let question_encoder := fun _ : list string => [[1%float]] in
  let index_nearest := fun (_ : list float) (_ : nat) => ["cat"] in
  "z" <> "" /\
  Retrieval.display_nearest_neighbors question_encoder index_nearest 1 "q?"
    (Some "z")
  = Some (Retrieval.question_answer_md "q?" "z" +:+ Retrieval.retrieved_md
          +:+ "<li> cat</li>" +:+ Py.nl +:+ "</ol>").
Proof.
  intros question_encoder index_nearest. split; [discriminate|].
  rewrite (display_nearest_neighbors_absent question_encoder index_nearest
             1 "q?" "z" [1%float]); [reflexivity | reflexivity | discriminate
                                     | lia |].
  repeat constructor. intros pre post H.
  destruct pre as [|? [|? [|? [|? ?]]]], post as [|? [|? [|? ?]]]; discriminate.
Defined.

(** ** Sentence extraction *)

Section SentenceFacts.

Import Squad.

Variable sent_tokenize : string -> list string.

Lemma zip_replicate (l : list string) (c : string) :
  zip l (replicate (length l) c) = map (fun s => (s, c)) l.
Proof. induction l as [|s l IH]; simpl; [reflexivity | now rewrite IH]. Qed.

Lemma extract_sentences_unfold (squad : squad_json) :
  extract_sentences_from_squad_json sent_tokenize squad =
  list_of_set
    (data squad ≫= fun d => paragraphs d ≫= fun p =>
       map (fun s => (s, context p)) (sent_tokenize (context p))).
Proof.
  unfold extract_sentences_from_squad_json. f_equal.
  rewrite (foldl_extend _
    (fun d => paragraphs d ≫= fun p =>
       map (fun s => (s, context p)) (sent_tokenize (context p))));
    [reflexivity|].
  intros acc d.
  rewrite (foldl_extend _
    (fun p => map (fun s => (s, context p)) (sent_tokenize (context p))));
    [reflexivity|].
  intros acc' p. now rewrite zip_replicate.
Qed.

(** X5: a pair is among the extracted sentences exactly when its second
    component is the context of some paragraph and its first component is
    one of the sentences the tokenizer finds in that context. *)
Theorem extract_sentences_spec (squad : squad_json) (s c : string) :
  (s, c) ∈ extract_sentences_from_squad_json sent_tokenize squad <->
  exists d p,
    d ∈ data squad /\ p ∈ paragraphs d /\ context p = c
    /\ s ∈ sent_tokenize c.
Proof.
  rewrite extract_sentences_unfold, list_of_set_elem, list_elem_of_bind.
  split.
  - intros (d & Hx & Hd). apply list_elem_of_bind in Hx as (p & Hx & Hp).
    apply list_elem_of_fmap in Hx as (s' & [= -> ->] & Hs). eauto 6.
  - intros (d & p & Hd & Hp & <- & Hs). exists d. split; [|exact Hd].
    apply list_elem_of_bind. exists p. split; [|exact Hp].
    apply list_elem_of_fmap. eauto.
Qed.

End SentenceFacts.

(** ** The indexing cell: sizes and failures *)

Section IndexingMoreFacts.

Import Indexing.

Variable response_encoder : list string -> list string -> list (list float).

(** The cell's result, once the probe and every batch get their outputs. *)
Lemma indexing_cell_result (sentences : list (string * string))
  (r0 c0 : string) (v0 : list float) :
  (forall input context,
     length (response_encoder input context) = length input) ->
  sentences !! 0%nat = Some (r0, c0) ->
  response_encoder [r0] [c0] !! 0%nat = Some v0 ->
  indexing_cell response_encoder sentences =
  Some (MkIndex (length v0) "angular"
          (concat (map (slice_entries response_encoder)
                       (zip_shared_iter batch_size sentences))) true,
        ([r0], [c0]) :: map slice_call (zip_shared_iter batch_size sentences)).
Proof.
  intros Hlen H0 Hv. unfold indexing_cell. rewrite H0, Hv.
  unfold new_index. now rewrite (index_slices_spec _ Hlen).
Qed.

(** X6: with an encoder that returns one vector per input, the built index
    has the dimension of the first pair's embedding and holds
    [n / 100 * 100] entries: none at all below 100 sentences, and every
    sentence, in order, when [n] is a multiple of 100. *)
Theorem indexing_cell_size (sentences : list (string * string)) :
  (forall input context,
     length (response_encoder input context) = length input) ->
  sentences <> [] ->
  exists ix log r0 c0 v0,
    sentences !! 0%nat = Some (r0, c0)
    /\ response_encoder [r0] [c0] = [v0]
    /\ indexing_cell response_encoder sentences = Some (ix, log)
    /\ dims ix = length v0 /\ metric ix = "angular"
    /\ length (corpus ix) = (length sentences / batch_size * batch_size)%nat
    /\ ((length sentences < batch_size)%nat -> corpus ix = [])
    /\ ((length sentences mod batch_size = 0)%nat ->
          map fst (corpus ix) = map fst sentences).
Proof.
  intros Hlen Hne.
  destruct (sentences !! 0%nat) as [[r0 c0]|] eqn:H0;
    [|destruct sentences; [congruence | discriminate]].
  pose proof (Hlen [r0] [c0]) as Hl.
  destruct (response_encoder [r0] [c0]) as [|v0 [|v1 vs]] eqn:Ev;
    try discriminate.
  destruct (zip_shared_iter_spec batch_size ltac:(unfold batch_size; lia)
              sentences) as (Hc & _ & _).
  assert (map fst (concat (map (slice_entries response_encoder)
                               (zip_shared_iter batch_size sentences)))
          = map fst (take (length sentences / batch_size * batch_size)
                          sentences)) as Hfst
    by (rewrite (fst_slice_entries _ Hlen); now rewrite Hc).
  eexists _, _, r0, c0, v0. split; [reflexivity|]. split; [exact Ev|].
  split.
  { apply (indexing_cell_result sentences r0 c0 v0 Hlen H0).
    now rewrite Ev. }
  cbn [dims metric corpus]. split; [reflexivity|]. split; [reflexivity|].
  assert (length (concat (map (slice_entries response_encoder)
                              (zip_shared_iter batch_size sentences)))
          = (length sentences / batch_size * batch_size)%nat) as Hsize.
  { rewrite <- (length_map fst), Hfst, length_map, length_take.
    pose proof (Nat.div_mod_eq (length sentences) batch_size). lia. }
  split; [exact Hsize|]. split.
  - intros Hlt. apply nil_length_inv. rewrite Hsize.
    now rewrite Nat.div_small.
  - intros Hmod. rewrite Hfst. f_equal. apply take_ge.
    pose proof (Nat.div_mod_eq (length sentences) batch_size). lia.
Qed.

(** X7: an encoder that returns fewer vectors than the batch has sentences
    makes the cell fail on the first batch, on the lookup of the missing
    output: nothing is built. *)
Theorem indexing_cell_short_outputs (sentences : list (string * string))
  (r0 c0 : string) (v0 : list float) :
  sentences !! 0%nat = Some (r0, c0) ->
  response_encoder [r0] [c0] !! 0%nat = Some v0 ->
  (batch_size <= length sentences)%nat ->
  (length (response_encoder (map fst (take batch_size sentences))
                            (map snd (take batch_size sentences)))
   < batch_size)%nat ->
  indexing_cell response_encoder sentences = None.
Proof.
  intros H0 Hv Hn Hshort. unfold indexing_cell. rewrite H0, Hv.
  assert (exists rest, zip_shared_iter batch_size sentences
                       = take batch_size sentences :: rest) as [rest ->].
  { unfold zip_shared_iter, batch_size in *.
    destruct sentences as [|x l]; [simpl in Hn; lia|].
    cbn [length zip_rounds]. rewrite pull_Some by exact Hn. eauto. }
  cbn [index_slices]. unfold index_slice, enumerate.
  set (outputs := response_encoder (map fst (take batch_size sentences)) _)
    in *.
  assert (forall (b : list string) (s : nat) (ix : SimpleNeighbors),
            (s <= length outputs < s + length b)%nat ->
            add_batch outputs (zip (seq s (length b)) b) ix = None) as Hadd.
  { induction b as [|x b IH]; intros s ix Hb; simpl in *; [lia|].
    destruct (outputs !! s) as [v|] eqn:Es; [|reflexivity].
    apply IH. apply lookup_lt_Some in Es. lia. }
  rewrite Hadd; [reflexivity|].
  rewrite length_map, length_take. lia.
Qed.

End IndexingMoreFacts.

Lemma indexing_cell_size_witness :
  let response_encoder :=
    fun (input context : list string) => map (fun _ : string => [1%float]) input in
  let sentences :=
    map (fun n => (String (ascii_of_nat n) "", "ctx")) (seq 0 200) in
  sentences <> []
  /\ exists ix log,
       Indexing.indexing_cell response_encoder sentences = Some (ix, log)
       /\ map fst (Indexing.corpus ix) = map fst sentences.
Proof.
  intros response_encoder sentences. split; [discriminate|].
  destruct (indexing_cell_size response_encoder sentences)
    as (ix & log & r0 & c0 & v0 & _ & _ & Hcell & _ & _ & _ & _ & Hall).
  - intros input context. apply length_map.
  - discriminate.
  - exists ix, log. split; [exact Hcell|]. apply Hall. reflexivity.
Defined.

Lemma indexing_cell_short_outputs_witness :
  let response_encoder :=
    fun (input context : list string) => take 1 (map (fun _ => [1%float]) input) in
  let sentences :=
    map (fun n => (String (ascii_of_nat n) "", "ctx")) (seq 0 100) in
  (Indexing.batch_size <= length sentences)%nat
  /\ Indexing.indexing_cell response_encoder sentences = None.
Proof.
  intros response_encoder sentences. split; [vm_compute; lia|].
  apply (indexing_cell_short_outputs response_encoder sentences
           (String (ascii_of_nat 0) "") "ctx" [1%float]).
  - reflexivity.
  - reflexivity.
  - vm_compute. lia.
  - vm_compute. lia.
Defined.

(** ** The download cache over several calls *)

Section FetchMoreFacts.

Import Ucf.

Variable _CACHE_DIR : string.
Variable urljoin : string -> string -> string.
Variable urlopen_read : string -> option (list Byte.byte).
Variable is_dir : string -> bool.
Variable open_wb : string -> bool.

Abbreviation fetch' :=
  (fetch_ucf_video _CACHE_DIR urljoin urlopen_read is_dir open_wb).

(** After a call that returned, the cache path exists. *)
Lemma fetch_returned_exists (video : string) (w : world) (p : string) :
  (fetch' video w).1 = Some p ->
  p = path_join _CACHE_DIR video
  /\ path_exists is_dir (path_join _CACHE_DIR video) (fetch' video w).2 = true.
Proof.
  destruct (path_exists is_dir (path_join _CACHE_DIR video) w) eqn:E.
  - rewrite (fetch_hit _ _ _ _ _ video w E). cbn. intros [= <-].
    split; [reflexivity | exact E].
  - rewrite (fetch_miss _ _ _ _ _ video w E).
    destruct (urlopen_read (urljoin UCF_ROOT video)); cbn; [|discriminate].
    destruct (open_wb (path_join _CACHE_DIR video)); cbn; [|discriminate].
    intros [= <-]. split; [reflexivity|].
    apply path_exists_file. cbn. rewrite lookup_insert_eq. eauto.
Qed.

(** X8: once a call has returned a path, calling again for the same name
    is a cache hit: it returns the same path and leaves the files, the
    request log and the printed lines as they are. *)
Theorem fetch_ucf_video_again (video : string) (w : world) (p : string) :
  (fetch' video w).1 = Some p ->
  fetch' video (fetch' video w).2 = (Some p, (fetch' video w).2).
Proof.
  intros H. destruct (fetch_returned_exists video w p H) as [-> Hex].
  now apply fetch_hit.
Qed.

(** X9: a call changes no file other than the one at the cache path of its
    name.  On a hit it prints and requests nothing; on a miss it appends
    exactly one line to the output, the line announcing the video's URL and
    the cache path, and exactly one request, for that URL. *)
Theorem fetch_ucf_video_frame (video : string) (w : world) :
  let cache_path := path_join _CACHE_DIR video in
  let urlpath := urljoin UCF_ROOT video in
  (forall p, p <> cache_path ->
     files (fetch' video w).2 !! p = files w !! p)
  /\ (path_exists is_dir cache_path w = true ->
        stdout (fetch' video w).2 = stdout w
        /\ requests (fetch' video w).2 = requests w)
  /\ (path_exists is_dir cache_path w = false ->
        stdout (fetch' video w).2
        = stdout w ++ ["Fetching " +:+ urlpath +:+ " => " +:+ cache_path]
        /\ requests (fetch' video w).2 = requests w ++ [urlpath]).
Proof.
  intros cache_path urlpath.
  destruct (path_exists is_dir cache_path w) eqn:E.
  - rewrite (fetch_hit _ _ _ _ _ video w E). cbn.
    split; [reflexivity|]. split; [split; reflexivity | discriminate].
  - rewrite (fetch_miss _ _ _ _ _ video w E).
    fold urlpath. fold cache_path.
    destruct (urlopen_read urlpath); [destruct (open_wb cache_path)|]; cbn.
    + split; [|split; [discriminate | split; reflexivity]].
      intros p Hp. now rewrite lookup_insert_ne.
    + split; [reflexivity|]. split; [discriminate | split; reflexivity].
    + split; [reflexivity|]. split; [discriminate | split; reflexivity].
Qed.

(** X10: when the cache path does not exist and the request raises,
    nothing is returned and no file is written, so the next call for the
    same name requests the same URL once more. *)
Theorem fetch_ucf_video_retry (video : string) (w : world) :
  path_exists is_dir (path_join _CACHE_DIR video) w = false ->
  urlopen_read (urljoin UCF_ROOT video) = None ->
  (fetch' video w).1 = None
  /\ files (fetch' video w).2 = files w
  /\ requests (fetch' video (fetch' video w).2).2
     = requests w ++ [urljoin UCF_ROOT video; urljoin UCF_ROOT video].
Proof.
  intros E Hfail.
  assert (fetch' video w =
          (None, request (urljoin UCF_ROOT video)
                   (print ("Fetching " +:+ urljoin UCF_ROOT video +:+ " => "
                           +:+ path_join _CACHE_DIR video) w))) as H1
    by (rewrite (fetch_miss _ _ _ _ _ video w E); now rewrite Hfail).
  rewrite H1. cbn [fst snd]. split; [reflexivity|]. split; [reflexivity|].
  rewrite fetch_miss by exact E. rewrite Hfail. cbn.
  now rewrite <- app_assoc.
Qed.

End FetchMoreFacts.

Lemma fetch_ucf_video_again_witness :
  let urlopen_read := fun _ : string => Some [Byte.x00] in
  let is_dir := String.eqb "/tmp/c" in
  let open_wb := String.prefix "/tmp/c/v_" in
  let w := Ucf.World ∅ [] [] in
  (Ucf.fetch_ucf_video "/tmp/c" (fun a b => a +:+ b) urlopen_read
     is_dir open_wb "v_a.avi" w).1 = Some "/tmp/c/v_a.avi"
  /\ Ucf.requests
       (Ucf.fetch_ucf_video "/tmp/c" (fun a b => a +:+ b) urlopen_read
          is_dir open_wb "v_a.avi"
          (Ucf.fetch_ucf_video "/tmp/c" (fun a b => a +:+ b) urlopen_read
             is_dir open_wb "v_a.avi" w).2).2
     = [Ucf.UCF_ROOT +:+ "v_a.avi"].
Proof.
  intros urlopen_read is_dir open_wb w.
  assert ((Ucf.fetch_ucf_video "/tmp/c" (fun a b => a +:+ b) urlopen_read
             is_dir open_wb "v_a.avi" w).1 = Some "/tmp/c/v_a.avi")
    as H by reflexivity.
  split; [exact H|].
  rewrite (fetch_ucf_video_again "/tmp/c" (fun a b => a +:+ b) urlopen_read
             is_dir open_wb "v_a.avi" w "/tmp/c/v_a.avi" H).
  reflexivity.
Defined.

Lemma fetch_ucf_video_frame_witness :
  let urlopen_read := fun _ : string => Some [Byte.x00] in
  let is_dir := String.eqb "/tmp/c" in
  let open_wb := fun _ : string => false in
  let w := Ucf.World ∅ [] [] in
  Ucf.path_exists is_dir (Ucf.path_join "/tmp/c" "sub/v_a.avi") w = false
  /\ Ucf.stdout
       (Ucf.fetch_ucf_video "/tmp/c" (fun a b => a +:+ b) urlopen_read
          is_dir open_wb "sub/v_a.avi" w).2
     = ["Fetching " +:+ Ucf.UCF_ROOT +:+ "sub/v_a.avi" +:+ " => "
        +:+ "/tmp/c/sub/v_a.avi"].
Proof.
  intros urlopen_read is_dir open_wb w. split; [reflexivity|].
  destruct (fetch_ucf_video_frame "/tmp/c" (fun a b => a +:+ b) urlopen_read
              is_dir open_wb "sub/v_a.avi" w) as (_ & _ & Hmiss).
  destruct (Hmiss eq_refl) as [Hout _]. exact Hout.
Defined.

Lemma fetch_ucf_video_retry_witness :
  let urlopen_read := fun _ : string => @None (list Byte.byte) in
  let is_dir := String.eqb "/tmp/c" in
  let open_wb := String.prefix "/tmp/c/v_" in
  let w := Ucf.World ∅ [] [] in
  Ucf.path_exists is_dir (Ucf.path_join "/tmp/c" "v_a.avi") w = false
  /\ (Ucf.fetch_ucf_video "/tmp/c" (fun a b => a +:+ b) urlopen_read
        is_dir open_wb "v_a.avi" w).1 = None.
Proof.
  intros urlopen_read is_dir open_wb w. split; [reflexivity|].
  apply (fetch_ucf_video_retry "/tmp/c" (fun a b => a +:+ b) urlopen_read
           is_dir open_wb "v_a.avi" w); reflexivity.
Defined.

(** ** Listing the catalogue *)

Section ListingFacts.

Import Catalogue.

Variable urlopen_text : string -> option string.
Variable findall_videos : string -> list string.

Abbreviation list_videos := (list_ucf_videos urlopen_text findall_videos).

Lemma sorted_set_elem (videos : list string) (v : string) :
  v ∈ sorted_set videos <-> v ∈ videos.
Proof.
  unfold sorted_set.
  now rewrite merge_sort_Permutation, elem_of_elements, elem_of_list_to_set.
Qed.

Lemma sorted_set_NoDup (videos : list string) : NoDup (sorted_set videos).
Proof.
  unfold sorted_set. rewrite merge_sort_Permutation. apply NoDup_elements.
Qed.

Lemma sorted_set_nil (videos : list string) :
  sorted_set videos = [] <-> videos = [].
Proof.
  split.
  - intros H. apply elem_of_nil_inv. intros v Hv.
    apply sorted_set_elem in Hv. rewrite H in Hv. now apply elem_of_nil in Hv.
  - intros ->. reflexivity.
Qed.

(** X11: when nothing is cached and the index page is read, the call makes
    one request for the catalogue root and returns, and caches, the names
    found on the page in ascending order, each once. *)
Theorem list_ucf_videos_fresh (cache : option (list string)) (w : Ucf.world)
  (index : string) :
  cache = None \/ cache = Some [] ->
  urlopen_text Ucf.UCF_ROOT = Some index ->
  exists l,
    list_videos cache w = (Some l, Some l, Ucf.request Ucf.UCF_ROOT w)
    /\ StronglySorted String.le l
    /\ NoDup l
    /\ forall v, v ∈ l <-> v ∈ findall_videos index.
Proof.
  intros Hc Hidx. exists (sorted_set (findall_videos index)).
  split; [|split; [|split]].
  - unfold list_ucf_videos.
    assert (not_video_list cache = true) as -> by (destruct Hc; now subst).
    now rewrite Hidx.
  - apply StronglySorted_merge_sort; apply _.
  - apply sorted_set_NoDup.
  - apply sorted_set_elem.
Qed.

(** X12: a call that returned a non-empty list has cached it: calling
    again returns the same list and makes no request. *)
Theorem list_ucf_videos_cached (cache : option (list string)) (w : Ucf.world)
  (v : string) (l : list string) :
  (list_videos cache w).1.1 = Some (v :: l) ->
  list_videos (list_videos cache w).1.2 (list_videos cache w).2
  = (Some (v :: l), (list_videos cache w).1.2, (list_videos cache w).2).
Proof.
  unfold list_ucf_videos.
  destruct (not_video_list cache) eqn:Hn.
  - destruct (urlopen_text Ucf.UCF_ROOT) as [index|]; cbn; [|discriminate].
    intros [= ->]. reflexivity.
  - cbn. intros ->. reflexivity.
Qed.

(** X13: a page with no video name on it is not remembered: the empty list
    is returned, and the next call requests the catalogue root again. *)
Theorem list_ucf_videos_empty_not_cached (cache : option (list string))
  (w : Ucf.world) (index : string) :
  cache = None \/ cache = Some [] ->
  urlopen_text Ucf.UCF_ROOT = Some index ->
  findall_videos index = [] ->
  (list_videos cache w).1.1 = Some []
  /\ Ucf.requests
       (list_videos (list_videos cache w).1.2 (list_videos cache w).2).2
     = Ucf.requests w ++ [Ucf.UCF_ROOT; Ucf.UCF_ROOT].
Proof.
  intros Hc Hidx Hnone.
  assert (list_videos cache w = (Some [], Some [], Ucf.request Ucf.UCF_ROOT w))
    as H1.
  { unfold list_ucf_videos.
    assert (not_video_list cache = true) as -> by (destruct Hc; now subst).
    rewrite Hidx, Hnone. reflexivity. }
  rewrite H1. cbn [fst snd]. split; [reflexivity|].
  unfold list_ucf_videos. cbn [not_video_list]. rewrite Hidx. cbn.
  now rewrite <- app_assoc.
Qed.

End ListingFacts.

Lemma list_ucf_videos_fresh_witness :
  let urlopen_text := fun _ : string => Some "v_b.avi v_a.avi v_b.avi" in
  let findall_videos := fun _ : string => ["v_b.avi"; "v_a.avi"; "v_b.avi"] in
  urlopen_text Ucf.UCF_ROOT = Some "v_b.avi v_a.avi v_b.avi"
  /\ exists l,
       (Catalogue.list_ucf_videos urlopen_text findall_videos None
          (Ucf.World ∅ [] [])).1.1 = Some l
       /\ StronglySorted String.le l.
Proof.
  intros urlopen_text findall_videos. split; [reflexivity|].
  destruct (list_ucf_videos_fresh urlopen_text findall_videos None
              (Ucf.World ∅ [] []) "v_b.avi v_a.avi v_b.avi")
    as (l & Hl & Hs & _).
  - now left.
  - reflexivity.
  - exists l. split; [now rewrite Hl | exact Hs].
Defined.

Lemma list_ucf_videos_cached_witness :
  let urlopen_text := fun _ : string => Some "v_b.avi v_a.avi" in
  let findall_videos := fun _ : string => ["v_b.avi"; "v_a.avi"] in
  let first := Catalogue.list_ucf_videos urlopen_text findall_videos None
                 (Ucf.World ∅ [] []) in
  first.1.1 = Some ["v_a.avi"; "v_b.avi"]
  /\ Ucf.requests
       (Catalogue.list_ucf_videos urlopen_text findall_videos
          first.1.2 first.2).2
     = [Ucf.UCF_ROOT].
Proof.
  intros urlopen_text findall_videos first.
  assert (first.1.1 = Some ["v_a.avi"; "v_b.avi"]) as H by (vm_compute; reflexivity).
  split; [exact H|].
  unfold first in *.
  rewrite (list_ucf_videos_cached urlopen_text findall_videos None
             (Ucf.World ∅ [] []) "v_a.avi" ["v_b.avi"] H).
  reflexivity.
Defined.

Lemma list_ucf_videos_empty_not_cached_witness :
  let urlopen_text := fun _ : string => Some "" in
  let findall_videos := fun _ : string => @nil string in
  urlopen_text Ucf.UCF_ROOT = Some ""
  /\ (Catalogue.list_ucf_videos urlopen_text findall_videos None
        (Ucf.World ∅ [] [])).1.1 = Some [].
Proof.
  intros urlopen_text findall_videos. split; [reflexivity|].
  apply (list_ucf_videos_empty_not_cached urlopen_text findall_videos None
           (Ucf.World ∅ [] []) "").
  - now left.
  - reflexivity.
  - reflexivity.
Defined.

(** ** Grouping the videos by category *)

Section CategoryFacts.

Import Catalogue.

(** X14: a name made of the two-character prefix, a category and a
    twelve-character tail (group, clip and extension) has that category. *)
Theorem category_of_name (prefix cat tail : string) :
  String.length prefix = 2%nat -> String.length tail = 12%nat ->
  category (prefix +:+ cat +:+ tail) = cat.
Proof.
  intros Hp Ht. unfold category, Py.slice, Py.bound, Py.len.
  rewrite !length_append, Hp, Ht.
  replace (2 <? 0) with false by reflexivity.
  replace (-12 <? 0) with true by reflexivity.
  rewrite Z.min_l by lia. rewrite Z.max_r by lia.
  replace (Z.to_nat 2) with (String.length prefix) by lia.
  replace (Z.to_nat _) with (String.length cat) by lia.
  rewrite substring_skip. apply substring_head.
Qed.

Lemma add_video_lookup (m : gmap string (list string)) (v c : string) :
  add_video m v !! c =
  if decide (category v = c) then Some (default [] (m !! c) ++ [v])
  else m !! c.
Proof.
  unfold add_video. destruct (decide (category v = c)) as [<-|Hne].
  - destruct (m !! category v) as [l|] eqn:E.
    + now rewrite lookup_alter_eq, E.
    + now rewrite lookup_alter_eq, lookup_insert_eq.
  - destruct (m !! category v) as [l|] eqn:E.
    + now rewrite lookup_alter_ne.
    + now rewrite lookup_alter_ne, lookup_insert_ne.
Qed.

(** X15: after the grouping loop, a category is a key exactly when some
    video has it, and its list holds exactly the videos of that category,
    in the order of the input. *)
Theorem group_videos_lookup (ucf_videos : list string) (c : string) :
  group_videos ucf_videos !! c =
  match filter (fun v => category v = c) ucf_videos with
  | [] => None
  | sequences => Some sequences
  end.
Proof.
  unfold group_videos.
  induction ucf_videos as [|v l IH] using rev_ind; [reflexivity|].
  rewrite foldl_snoc, add_video_lookup, filter_app, IH, filter_cons, filter_nil.
  destruct (decide (category v = c)) as [Hc|Hc];
    destruct (filter _ l); cbn; rewrite ?app_nil_r; reflexivity.
Qed.

End CategoryFacts.

Lemma category_of_name_witness :
  (String.length "v_" = 2 /\ String.length "_g04_c02.avi" = 12)%nat
  /\ Catalogue.category "v_CricketShot_g04_c02.avi" = "CricketShot".
Proof.
  split; [split; reflexivity|].
  apply (category_of_name "v_" "CricketShot" "_g04_c02.avi"); reflexivity.
Defined.

(** ** Frames: how many are read, square frames, and the way back *)

Section FrameFacts.

Import Video.

Variable cv2_resize : frame Z -> Z * Z -> frame Z.

(** How many of the remaining frames the loop still takes, with
    [collected] frames already in the list. *)
Lemma read_frames_take (max_frames : Z) (resize : Z * Z)
  (cap : list (frame Z)) :
  forall frames,
  read_frames cv2_resize cap frames max_frames resize
  = frames
    ++ map (fun f => reorder_channels (cv2_resize (crop_center_square f) resize))
         (take (if (Z.of_nat (length frames) <? max_frames)
                   && (max_frames <=? Z.of_nat (length frames + length cap))
                then (Z.to_nat max_frames - length frames)%nat
                else length cap) cap).
Proof.
  induction cap as [|f cap IH]; intros frames.
  - simpl. rewrite take_nil. now rewrite app_nil_r.
  - cbn [read_frames]. rewrite length_app. cbn [length].
    destruct (Z.eqb_spec (Z.of_nat (length frames + 1)) max_frames) as [E|E].
    + destruct (Z.ltb_spec (Z.of_nat (length frames)) max_frames); [|lia].
      destruct (Z.leb_spec max_frames
                  (Z.of_nat (length frames + S (length cap)))); [|lia].
      cbn [andb].
      replace (Z.to_nat max_frames - length frames)%nat with 1%nat by lia.
      reflexivity.
    + rewrite IH, length_app. cbn [length]. rewrite <- app_assoc. f_equal.
      destruct (Z.ltb_spec (Z.of_nat (length frames)) max_frames);
        destruct (Z.leb_spec max_frames
                    (Z.of_nat (length frames + S (length cap))));
        destruct (Z.ltb_spec (Z.of_nat (length frames + 1)) max_frames);
        destruct (Z.leb_spec max_frames
                    (Z.of_nat (length frames + 1 + length cap)));
        cbn [andb]; try lia; try reflexivity.
      replace (Z.to_nat max_frames - length frames)%nat
        with (S (Z.to_nat max_frames - (length frames + 1)))%nat by lia.
      reflexivity.
Qed.

(** X16: [load_video] returns the processed frames in the order of the
    video: the first [max_frames] of them when [max_frames] is positive
    and the video has that many, and all of them otherwise, in particular
    with the default [max_frames = 0]. *)
Theorem load_video_frame_count (cap : list (frame Z)) (max_frames : Z)
  (resize : Z * Z) :
  let k := if (0 <? max_frames) && (max_frames <=? Z.of_nat (length cap))
           then Z.to_nat max_frames else length cap in
  load_video cv2_resize cap max_frames resize
  = map (fun f => map (map (map_pixel normalize))
                    (reorder_channels
                       (cv2_resize (crop_center_square f) resize)))
        (take k cap)
  /\ length (load_video cv2_resize cap max_frames resize) = k
  /\ load_video cv2_resize cap 0 resize
     = map (fun f => map (map (map_pixel normalize))
                       (reorder_channels
                          (cv2_resize (crop_center_square f) resize)))
           cap.
Proof.
  assert (forall m,
    load_video cv2_resize cap m resize
    = map (fun f => map (map (map_pixel normalize))
                      (reorder_channels
                         (cv2_resize (crop_center_square f) resize)))
          (take (if (0 <? m) && (m <=? Z.of_nat (length cap))
                 then Z.to_nat m else length cap) cap)) as H.
  { intros m. unfold load_video. rewrite read_frames_take.
    cbn [length app Nat.add]. rewrite Nat.sub_0_r.
    now rewrite map_map. }
  intros k. split; [apply H|]. split.
  - subst k. rewrite H, length_map, length_take. unfold frame in *.
    destruct (Z.ltb_spec 0 max_frames);
      destruct (Z.leb_spec max_frames (Z.of_nat (length cap)));
      cbn [andb]; lia.
  - rewrite H. cbn. now rewrite firstn_all.
Qed.

(** X17: cropping a square frame, one with as many rows as each row has
    columns, returns the frame itself. *)
Theorem crop_center_square_square {A : Type} (f : list (list A)) (n : nat) :
  length f = n -> Forall (fun row => length row = n) f ->
  crop_center_square f = f.
Proof.
  intros Hn Hrows. destruct n as [|n].
  - destruct f; [reflexivity | discriminate].
  - unfold crop_center_square.
    rewrite (shape2_rect f (S n) (S n) Hn Hrows (Nat.lt_0_succ n)).
    cbv beta iota zeta. rewrite Z.min_id, Z.sub_diag.
    rewrite lslice_in_range by lia.
    rewrite Nat2Z.id. change (Z.to_nat 0) with 0%nat.
    rewrite drop_0, take_ge by lia.
    rewrite <- (map_id f) at 2. apply map_ext_Forall.
    eapply Forall_impl; [exact Hrows|]. intros row Hrow. cbn beta in *.
    rewrite lslice_in_range by lia.
    rewrite Nat2Z.id. change (Z.to_nat 0) with 0%nat.
    now rewrite drop_0, take_ge by lia.
Qed.

End FrameFacts.

Lemma crop_center_square_square_witness :
  let f := [[1; 2]; [3; 4]] in
  length f = 2%nat /\ Video.crop_center_square f = f.
Proof.
  intros f. split; [reflexivity|].
  apply (crop_center_square_square f 2); [reflexivity | repeat constructor].
Defined.

(** ** From normalised frames back to 8-bit frames *)

Section GifFacts.

Import Video Gif.

(** The 256 values of [uint8]: normalising and converting back. *)
Lemma convert_normalize_checked :
  forallb (fun n =>
             match convert_value (normalize (Z.of_nat n)) with
             | Some v => v =? Z.of_nat n
             | None => false
             end)
          (seq 0 256) = true.
Proof. vm_compute. reflexivity. Qed.

Lemma convert_normalize (v : Z) :
  is_uint8 v -> convert_value (normalize v) = Some v.
Proof.
  intros [Hlo Hhi].
  pose proof convert_normalize_checked as Hall.
  rewrite forallb_forall in Hall.
  specialize (Hall (Z.to_nat v)).
  rewrite Z2Nat.id in Hall by exact Hlo.
  destruct (convert_value (normalize v)) as [u|].
  - f_equal. apply Z.eqb_eq. apply Hall. apply in_seq. lia.
  - discriminate Hall. apply in_seq. lia.
Qed.

Lemma convert_pixel_normalize (p : pixel Z) :
  pixel_all is_uint8 p ->
  convert_pixel (map_pixel normalize p) = Some p.
Proof.
  intros (H0 & H1 & H2). unfold convert_pixel, map_pixel. cbn [ch0 ch1 ch2].
  rewrite !convert_normalize by assumption. now destruct p.
Qed.

Lemma converted_images_normalize (frames : list (frame Z)) :
  Forall (frame_all is_uint8) frames ->
  converted_images (map (map (map (map_pixel normalize))) frames)
  = Some frames.
Proof.
  intros H. unfold converted_images.
  apply mapM_fmap_Forall_Some. eapply Forall_impl; [exact H|].
  intros f Hf. apply mapM_fmap_Forall_Some. eapply Forall_impl; [exact Hf|].
  intros row Hrow. apply mapM_fmap_Forall_Some.
  eapply Forall_impl; [exact Hrow|]. intros p Hp.
  now apply convert_pixel_normalize.
Qed.

Variable cv2_resize : frame Z -> Z * Z -> frame Z.
Variable world : Type.
Variable html : Type.
Variable mimsave : string -> list (frame Z) -> Z -> world -> world.
Variable embed_file : string -> world -> html.

(** X18: on the array [load_video] returns for 8-bit frames, [to_gif]
    recovers exactly the 8-bit frames the loading loop had collected:
    scaling by 255, clipping and cutting off the fraction undoes the
    division by 255 on every value, and those frames are what is saved. *)
Theorem to_gif_load_video (cap : list (frame Z)) (max_frames : Z)
  (resize : Z * Z) (w : world) :
  (forall f size,
     frame_all is_uint8 f -> frame_all is_uint8 (cv2_resize f size)) ->
  Forall (frame_all is_uint8) cap ->
  let frames := read_frames cv2_resize cap [] max_frames resize in
  converted_images (load_video cv2_resize cap max_frames resize) = Some frames
  /\ to_gif world html mimsave embed_file
       (load_video cv2_resize cap max_frames resize) w
     = Some (embed_file "./animation.gif"
               (mimsave "./animation.gif" frames 25 w),
             mimsave "./animation.gif" frames 25 w).
Proof.
  intros Hresize Hcap frames.
  assert (converted_images (load_video cv2_resize cap max_frames resize)
          = Some frames) as H.
  { unfold load_video. apply converted_images_normalize.
    apply read_frames_uint8; [exact Hresize | exact Hcap | constructor]. }
  split; [exact H|]. unfold to_gif. now rewrite H.
Qed.

End GifFacts.

Lemma to_gif_load_video_witness :
  let cap := [[[Video.Pixel 0 128 255; Video.Pixel 255 7 1]]] in
  Forall (Video.frame_all Video.is_uint8) cap
  /\ Gif.converted_images (Video.load_video (fun f _ => f) cap 0 (224, 224))
     = Some (Video.read_frames (fun f _ => f) cap [] 0 (224, 224)).
Proof.
  intros cap.
  assert (Forall (Video.frame_all Video.is_uint8) cap) as Hcap.
  { unfold cap, Video.frame_all, Video.pixel_all, Video.is_uint8.
    repeat constructor; simpl; lia. }
  split; [exact Hcap|].
  apply (to_gif_load_video (fun f _ => f) unit unit
           (fun _ _ _ w => w) (fun _ _ => tt) cap 0 (224, 224) tt
           (fun f _ H => H) Hcap).
Defined.

(** ** The report on short or unlabelled outputs *)

Section PredictMoreFacts.

Import Report.

Variable video : Type.
Variable i3d : list video -> list (list float32).
Variable softmax : list float32 -> list float32.
Variable argsort : list float32 -> list nat.
Variable labels : list string.

(** X19: with [n] classes, all labelled, the report has [min 5 n] lines
    after the heading: fewer than five classes give fewer than five lines,
    and no class is reported twice. *)
Theorem predict_line_count (sample_video : video) (logits : list float32) :
  i3d [sample_video] !! 0%nat = Some logits ->
  argsort (softmax logits) ≡ₚ seq 0 (length (softmax logits)) ->
  (length (softmax logits) <= length labels)%nat ->
  exists rows,
    predict video i3d softmax argsort labels sample_video
    = (Heading :: rows, Returned)
    /\ length rows = Nat.min 5 (length (softmax logits))
    /\ NoDup (take 5 (reverse (argsort (softmax logits)))).
Proof.
  intros Hlogits Hperm Hlabels.
  set (probabilities := softmax logits) in *.
  set (order := argsort probabilities) in *.
  assert (length order = length probabilities) as Hlen
    by (rewrite Hperm; apply length_seq).
  assert (is_Some (mapM (report_line labels probabilities)
                        (take 5 (reverse order)))) as [rows Hrows].
  { apply mapM_is_Some, Forall_forall. intros i Hi.
    apply elem_of_take in Hi as (a & Ha & _).
    assert (i ∈ order) as Hin
      by (apply elem_of_reverse, list_elem_of_lookup; eauto).
    rewrite Hperm, elem_of_seq in Hin.
    unfold compose, report_line.
    destruct (lookup_lt_is_Some_2 labels i) as [l ->]; [lia|].
    destruct (lookup_lt_is_Some_2 probabilities i) as [p ->]; [lia|].
    eauto. }
  exists rows. split; [|split].
  - unfold predict. rewrite Hlogits. fold probabilities. fold order.
    now rewrite (print_lines_returned _ _ _ rows [Heading] Hrows).
  - apply length_mapM in Hrows. rewrite <- Hrows.
    now rewrite length_take, length_reverse, Hlen.
  - eapply sublist_NoDup; [|apply sublist_take].
    rewrite reverse_Permutation, Hperm. apply NoDup_seq.
Qed.

(** The loop stops at the first class without a line, with the lines of
    the classes before it printed. *)
Lemma print_lines_raised (probabilities : list float32) (i : nat)
  (post : list nat) (pre : list nat) :
  forall rows stdout,
  mapM (report_line labels probabilities) pre = Some rows ->
  report_line labels probabilities i = None ->
  print_lines labels probabilities (pre ++ i :: post) stdout
  = (stdout ++ rows, Raised).
Proof.
  induction pre as [|j pre IH]; intros rows stdout Hrows Hi.
  - injection Hrows as <-. cbn. rewrite Hi. now rewrite app_nil_r.
  - apply mapM_Some in Hrows. inversion Hrows as [|? row ? rows' Hj Hrest];
      subst.
    cbn [app print_lines]. rewrite Hj.
    rewrite (IH rows' (stdout ++ [row])); [|now apply mapM_Some | exact Hi].
    now rewrite <- app_assoc.
Qed.

(** X20: when the first of the selected classes without an entry in the
    label list is reached, the lookup of its label raises: the heading and
    the lines of the classes selected before it have been printed, with
    their labels and percentages, and nothing is printed for it or for the
    classes after it. *)
Theorem predict_missing_label (sample_video : video) (logits : list float32)
  (pre post : list nat) (i : nat) :
  i3d [sample_video] !! 0%nat = Some logits ->
  take 5 (reverse (argsort (softmax logits))) = pre ++ i :: post ->
  Forall (fun j => (j < length labels)%nat
                   /\ (j < length (softmax logits))%nat) pre ->
  (length labels <= i)%nat ->
  exists rows,
    predict video i3d softmax argsort labels sample_video
    = (Heading :: rows, Raised)
    /\ Forall2 (fun j row =>
         exists l p, labels !! j = Some l /\ softmax logits !! j = Some p
                     /\ row = Action l (mul32 p hundred)) pre rows.
Proof.
  intros Hlogits Htop Hpre Hi.
  assert (is_Some (mapM (report_line labels (softmax logits)) pre))
    as [rows Hrows].
  { apply mapM_is_Some. eapply Forall_impl; [exact Hpre|].
    intros j [Hj1 Hj2]. unfold compose, report_line.
    destruct (lookup_lt_is_Some_2 labels j Hj1) as [l ->].
    destruct (lookup_lt_is_Some_2 (softmax logits) j Hj2) as [p ->].
    eauto. }
  exists rows. split.
  - unfold predict. rewrite Hlogits, Htop.
    rewrite (print_lines_raised _ i post pre rows [Heading] Hrows);
      [reflexivity|].
    unfold report_line. now rewrite (lookup_ge_None_2 labels i Hi).
  - apply mapM_Some in Hrows. eapply Forall2_impl; [exact Hrows|].
    intros j row. unfold report_line.
    destruct (labels !! j) as [l|]; [|discriminate].
    destruct (softmax logits !! j) as [p|]; [|discriminate].
    intros [= <-]. eauto.
Qed.

End PredictMoreFacts.

Lemma predict_line_count_witness :
  let sixteenth := fun k : Z => binary_normalize 24 128 k (-4) false in
  let i3d := fun _ : list unit => [map sixteenth [4; 11; 1]%Z] in
  let softmax := fun logits : list Report.float32 => logits in
  let argsort := fun _ : list Report.float32 => [2; 0; 1]%nat in
  let labels := ["abseiling"; "archery"; "bowling"] in
  i3d [tt] !! 0%nat = Some (map sixteenth [4; 11; 1]%Z)
  /\ exists rows,
       Report.predict unit i3d softmax argsort labels tt
       = (Report.Heading :: rows, Report.Returned)
       /\ length rows = 3%nat.
Proof.
  intros sixteenth i3d softmax argsort labels. split; [reflexivity|].
  destruct (predict_line_count unit i3d softmax argsort labels tt
              (map sixteenth [4; 11; 1]%Z)) as (rows & Hp & Hl & _).
  - reflexivity.
  - apply (bool_decide_unpack _). vm_compute. exact I.
  - simpl. lia.
  - exists rows. split; [exact Hp | exact Hl].
Defined.

Lemma predict_missing_label_witness :
  let sixteenth := fun k : Z => binary_normalize 24 128 k (-4) false in
  let i3d := fun _ : list unit => [map sixteenth [4; 11; 1]%Z] in
  let softmax := fun logits : list Report.float32 => logits in
  let argsort := fun _ : list Report.float32 => [2; 0; 1]%nat in
  let labels := ["abseiling"; "archery"] in
  (length labels <= 2)%nat
  /\ exists rows,
       Report.predict unit i3d softmax argsort labels tt
       = (Report.Heading :: rows, Report.Raised)
       /\ length rows = 2%nat.
Proof.
  intros sixteenth i3d softmax argsort labels. split; [simpl; lia|].
  destruct (predict_missing_label unit i3d softmax argsort labels tt
              (map sixteenth [4; 11; 1]%Z) [1; 0]%nat [] 2%nat)
    as (rows & Hp & Hrows).
  - reflexivity.
  - reflexivity.
  - repeat constructor.
  - simpl. lia.
  - exists rows. split; [exact Hp|].
    apply Forall2_length in Hrows. now rewrite <- Hrows.
Defined.
